(** * goschtalt [pkg/meta]: the Object tree, command resolution and merge

    A shallow embedding of [meta.Object] and of the functions that work on
    it ([Kind], [ToRaw], [ObjectFromRaw], [AlterKeyCase], [resolveCommands],
    [getValidCmd], [merge], [Merge]), followed by the properties proved
    about them. *)

From Stdlib Require Import String Ascii List ZArith Bool Lia DecimalString.
Import ListNotations.
Open Scope string_scope.
Open Scope list_scope.

(** ** Errors and Go results *)

(** The package's sentinel errors. *)
Inductive error : Type :=
| ErrConflict
| ErrInvalidCommand
| ErrNotFound
| ErrArrayOutOfBounds.

(** ** Go maps with string keys

    A [map[string]T] is kept as the list of its entries in the order in
    which a [range] over it visits them.  Go leaves that order open, so a
    statement about every [gomap] is a statement about every order.  A real
    map never holds a key twice. *)
Definition gomap (A : Type) : Type := list (string * A).

Section GoMap.
Context {A : Type}.

(** [v, found := m[k]] *)
Fixpoint map_get (k : string) (m : gomap A) : option A :=
  match m with
  | [] => None
  | (k', v) :: m' => if String.eqb k k' then Some v else map_get k m'
  end.

(** [m[k] = v] *)
Fixpoint map_set (k : string) (v : A) (m : gomap A) : gomap A :=
  match m with
  | [] => [(k, v)]
  | (k', v') :: m' =>
      if String.eqb k k' then (k, v) :: m' else (k', v') :: map_set k v m'
  end.

Definition keys (m : gomap A) : list string := map fst m.

End GoMap.

(** ** Origins, values and objects *)

Record Origin : Type := mkOrigin {
  File : string;
  Line : Z;
  Col : Z
}.

Unset Elimination Schemes.

(** Go's [any], as far as configuration trees use it: the native values a
    decoder hands over (nil, booleans, numbers, strings, [[]any] and
    [map[string]any]). *)
Inductive any : Type :=
| any_nil
| any_bool (b : bool)
| any_num (n : Z)
| any_string (s : string)
| any_slice (l : list any)
| any_map (m : gomap any).

(** [Array], [Map], [Value]: the constants [iota + 1 .. iota + 3]. *)
Inductive kind : Type := KArray | KMap | KValue.

Definition kind_eqb (a b : kind) : bool :=
  match a, b with
  | KArray, KArray | KMap, KMap | KValue, KValue => true
  | _, _ => false
  end.

(** [type Object struct].  Slices are lists: a nil slice and an empty one
    are the same list, as [len], [range] and [append] treat them alike. *)
Inductive Object : Type := mkObject {
  Origins : list Origin;
  Array : list Object;
  Map : gomap Object;
  Value : any;
  secret : bool
}.

Set Elimination Schemes.

(** [Object{}] *)
Definition zeroObject : Object := mkObject [] [] [] any_nil false.

Definition with_Origins (o : Object) (x : list Origin) : Object :=
  mkObject x (Array o) (Map o) (Value o) (secret o).
Definition with_Array (o : Object) (x : list Object) : Object :=
  mkObject (Origins o) x (Map o) (Value o) (secret o).
Definition with_Map (o : Object) (x : gomap Object) : Object :=
  mkObject (Origins o) (Array o) x (Value o) (secret o).
Definition with_secret (o : Object) (x : bool) : Object :=
  mkObject (Origins o) (Array o) (Map o) (Value o) x.

(** [func (o Object) Kind() int] *)
Definition Kind (o : Object) : kind :=
  if (0 <? length (Array o))%nat then KArray
  else if (0 <? length (Map o))%nat then KMap
  else KValue.

(** Go's [(Object, error)]: the second component is [None] for a nil
    error. *)
Definition result : Type := (Object * option error)%type.

(** ** Commands *)

Definition cmdSecret := "secret".
Definition cmdReplace := "replace".
Definition cmdKeep := "keep".
Definition cmdFail := "fail".
Definition cmdAppend := "append".
Definition cmdPrepend := "prepend".
Definition cmdSplice := "splice".
Definition cmdClear := "clear".

(** [type command struct], with the fields that the code reads: the
    directive, the secret marker and the key with the command removed. *)
Module command.
Record t : Type := mk {
  cmd : string;
  secret : bool;
  final : string
}.
(** [command{}] *)
Definition zero : t := mk "" false "".
End command.

(** Loops over slices and maps that stop at the first error. *)
Section Loops.
Context {A B : Type}.
Variable f : A -> B * option error.

(** [for i, val := range l { v, err := f(val); if err != nil { return
    err }; out[i] = v }] *)
Fixpoint each (l : list A) : list B * option error :=
  match l with
  | [] => ([], None)
  | val :: l' =>
      match f val with
      | (_, Some e) => ([], Some e)
      | (v, None) =>
          match each l' with
          | (_, Some e) => ([], Some e)
          | (vs, None) => (v :: vs, None)
          end
      end
  end.
End Loops.

(** [for key, val := range l { m[key] = f(val) }], from the map [m]. *)
Definition range_set {A B : Type} (f : A -> B) (l : gomap A) (m : gomap B)
  : gomap B :=
  fold_left (fun acc kv => map_set (fst kv) (f (snd kv)) acc) l m.

(** Code that may panic returns an [option]: [None] is the panic. *)
Section PanicLoops.
Context {A B : Type}.
Variable f : A -> option B.

(** [for i, val := range l { out[i] = f(val) }] *)
Fixpoint each_panic (l : list A) : option (list B) :=
  match l with
  | [] => Some []
  | val :: l' =>
      match f val with
      | None => None
      | Some v =>
          match each_panic l' with
          | None => None
          | Some vs => Some (v :: vs)
          end
      end
  end.

(** [for key, val := range l { m[to(key)] = f(val) }], where calling a
    nil [to] panics. *)
Fixpoint range_set_panic (to : option (string -> string))
  (l : gomap A) (m : gomap B) : option (gomap B) :=
  match l with
  | [] => Some m
  | (key, val) :: l' =>
      match to with
      | None => None
      | Some g =>
          match f val with
          | None => None
          | Some v => range_set_panic to l' (map_set (g key) v m)
          end
      end
  end.
End PanicLoops.

(** ** Conversions *)

(** [func (obj Object) ToRaw() any] *)
Fixpoint ToRaw (obj : Object) : any :=
  match Kind obj with
  | KArray => any_slice (map ToRaw (Array obj))
  | KMap => any_map (range_set ToRaw (Map obj) [])
  | KValue => Value obj
  end.

(** [func ObjectFromRaw(in any) (obj Object)] *)
Fixpoint ObjectFromRaw (i : any) : Object :=
  match i with
  | any_slice l => mkObject [] (map ObjectFromRaw l) [] any_nil false
  | any_map m => mkObject [] [] (range_set ObjectFromRaw m []) any_nil false
  | _ => mkObject [] [] [] i false
  end.

(** [func (obj Object) AlterKeyCase(to func(string) string) Object]; a nil
    [to] is [None]. *)
Fixpoint AlterKeyCase (obj : Object) (to : option (string -> string))
  : option Object :=
  match Kind obj with
  | KArray =>
      match each_panic (fun val => AlterKeyCase val to) (Array obj) with
      | None => None
      | Some array => Some (with_Array obj array)
      end
  | KMap =>
      match range_set_panic (fun val => AlterKeyCase val to) to (Map obj) []
      with
      | None => None
      | Some m => Some (with_Map obj m)
      end
  | KValue => Some obj
  end.

Section Meta.

(** [getCmd] parses a map key into a command.  Its body is not part of
    the sources at hand; the functions below are written against any
    parser of this type. *)
Variable getCmd : string -> command.t * option error.

(** The directives [getValidCmd] admits for each kind. *)
Definition valid_cmds (k : kind) : list string :=
  match k with
  | KMap => [""; cmdFail; cmdKeep; cmdReplace; cmdSplice]
  | KArray => [""; cmdFail; cmdKeep; cmdReplace; cmdAppend; cmdPrepend]
  | KValue => [""; cmdFail; cmdKeep; cmdReplace]
  end.

(** [func getValidCmd(key string, obj Object) (command, error)] *)
Definition getValidCmd (key : string) (obj : Object)
  : command.t * option error :=
  match getCmd key with
  | (_, Some e) => (command.zero, Some e)
  | (cmd, None) =>
      if existsb (String.eqb (command.cmd cmd)) (valid_cmds (Kind obj))
      then (cmd, None)
      else (command.zero, Some ErrInvalidCommand)
  end.

(** The [Map] loop of [resolveCommands]: [m] is the map under
    construction, [l] what is left of the range over [obj.Map]. *)
Section ResolveRange.
Variable resolve : Object -> bool -> result.

Fixpoint resolve_range (l : gomap Object) (m : gomap Object)
  : gomap Object * option error :=
  match l with
  | [] => (m, None)
  | (key, val) :: l' =>
      match getValidCmd key val with
      | (_, Some e) => ([], Some e)
      | (cmd, None) =>
          match resolve val (command.secret cmd) with
          | (_, Some e) => ([], Some e)
          | (tmp, None) =>
              resolve_range l' (map_set (command.final cmd) tmp m)
          end
      end
  end.
End ResolveRange.

(** [func (obj Object) resolveCommands(secret bool) (Object, error)] *)
Fixpoint resolveCommands (obj : Object) (secret : bool) {struct obj}
  : result :=
  let obj' := if secret then with_secret obj true else obj in
  match Kind obj with
  | KArray =>
      match each (fun val => resolveCommands val false) (Array obj) with
      | (_, Some e) => (zeroObject, Some e)
      | (array, None) => (with_Array obj' array, None)
      end
  | KMap =>
      match resolve_range (fun val s => resolveCommands val s) (Map obj) []
      with
      | (_, Some e) => (zeroObject, Some e)
      | (m, None) => (with_Map obj' m, None)
      end
  | KValue => (obj', None)
  end.

(** [func (obj Object) ResolveCommands() (Object, error)] *)
Definition ResolveCommands (obj : Object) : result :=
  resolveCommands obj false.

(** *** Merge

    [obj] is passed by value, but [obj.Map] is a reference: the
    assignments [obj.Map[k] = v] of the splice loop write into the map
    object that the caller's tree holds too.  [merge] therefore returns
    two things: Go's [(Object, error)], and the entries of the map object
    behind [obj.Map] when the call is over, which are the entries that the
    caller finds in its tree from then on.  No map object is taken to be
    held at two places of the two trees. *)

(** The splice loop of [merge]: [cur] holds the entries of the map
    object behind [obj.Map], [l] is what is left of the range over
    [next.Map]. *)
Section SpliceRange.
Variable mergeF : Object -> command.t -> Object -> result * gomap Object.

Fixpoint splice_range (l : gomap Object) (cur : gomap Object)
  : option error * gomap Object :=
  match l with
  | [] => (None, cur)
  | (key, val) :: l' =>
      match getValidCmd key val with
      | (_, Some e) => (Some e, cur)
      | (newCmd, None) =>
          match map_get (command.final newCmd) cur with
          | None =>
              (* Merging with no conflicts. *)
              match resolveCommands val (command.secret newCmd) with
              | (_, Some e) => (Some e, cur)
              | (v, None) =>
                  splice_range l' (map_set (command.final newCmd) v cur)
              end
          | Some existing =>
              if kind_eqb (Kind existing) (Kind val) then
                match mergeF existing newCmd val with
                | ((_, Some e), em) =>
                    (* [existing.Map] is the map object that the entry
                       of [obj.Map] still points to. *)
                    (Some e,
                     map_set (command.final newCmd)
                             (with_Map existing em) cur)
                | ((v, None), _) =>
                    splice_range l' (map_set (command.final newCmd) v cur)
                end
              else if (command.cmd newCmd =? cmdSplice)
                      || (command.cmd newCmd =? cmdReplace)
                      || (command.cmd newCmd =? "") then
                match resolveCommands val (command.secret newCmd) with
                | (_, Some e) => (Some e, cur)
                | (v, None) =>
                    splice_range l' (map_set (command.final newCmd) v cur)
                end
              else if command.cmd newCmd =? cmdKeep then
                splice_range l'
                  (map_set (command.final newCmd) existing cur)
              else if command.cmd newCmd =? cmdFail then
                (Some ErrConflict, cur)
              else
                splice_range l' cur
          end
      end
  end.
End SpliceRange.

(** [func (obj Object) merge(cmd command, next Object) (Object, error)] *)
Fixpoint merge (obj : Object) (cmd : command.t) (next : Object)
  {struct next} : result * gomap Object :=
  match Kind obj with
  | KValue =>
      if (command.cmd cmd =? cmdReplace) || (command.cmd cmd =? "") then
        ((with_secret next (command.secret cmd), None), Map obj)
      else if command.cmd cmd =? cmdKeep then
        ((with_secret obj (command.secret cmd), None), Map obj)
      else if command.cmd cmd =? cmdFail then
        ((zeroObject, Some ErrConflict), Map obj)
      else
        ((with_secret obj (command.secret cmd), None), Map obj)
  | KArray =>
      match resolveCommands next (secret obj) with
      | (_, Some e) => ((zeroObject, Some e), Map obj)
      | (next, None) =>
          if (command.cmd cmd =? cmdAppend) || (command.cmd cmd =? "") then
            let rv :=
              if secret obj || secret next || command.secret cmd
              then with_secret obj true else obj in
            let rv := with_Origins rv (Origins obj ++ Origins next) in
            let rv := with_Array rv (Array obj ++ Array next) in
            ((rv, None), Map obj)
          else if command.cmd cmd =? cmdPrepend then
            let rv :=
              if secret obj || secret next || command.secret cmd
              then with_secret obj true else obj in
            let rv := with_Origins rv (Origins next ++ Origins obj) in
            let rv := with_Array rv (Array next ++ Array obj) in
            ((rv, None), Map obj)
          else if command.cmd cmd =? cmdReplace then
            ((next, None), Map obj)
          else if command.cmd cmd =? cmdKeep then
            ((obj, None), Map obj)
          else if command.cmd cmd =? cmdFail then
            ((zeroObject, Some ErrConflict), Map obj)
          else
            ((obj, None), Map obj)
      end
  | KMap =>
      if (command.cmd cmd =? cmdSplice) || (command.cmd cmd =? "") then
        match splice_range (fun existing c val => merge existing c val)
                           (Map next) (Map obj) with
        | (Some e, m) => ((zeroObject, Some e), m)
        | (None, m) =>
            ((with_secret (with_Map obj m) (command.secret cmd), None), m)
        end
      else if command.cmd cmd =? cmdReplace then
        match resolveCommands next false with
        | (_, Some e) => ((zeroObject, Some e), Map obj)
        | (v, None) => ((with_secret v (command.secret cmd), None), Map obj)
        end
      else if command.cmd cmd =? cmdKeep then
        ((with_secret obj (command.secret cmd), None), Map obj)
      else if command.cmd cmd =? cmdFail then
        ((zeroObject, Some ErrConflict), Map obj)
      else
        ((with_secret obj (command.secret cmd), None), Map obj)
  end.

(** The scan of [Merge] for the 'clear' command: [Some r] when the loop
    returns [r], [None] when it runs to its end. *)
Fixpoint clear_scan (l : gomap Object) : option result :=
  match l with
  | [] => None
  | (k, _) :: l' =>
      match getCmd k with
      | (_, Some e) => Some (zeroObject, Some e)
      | (cmd, None) =>
          if command.cmd cmd =? cmdClear
          then Some (mkObject [] [] [] any_nil false, None)
          else clear_scan l'
      end
  end.

(** [func (obj Object) Merge(next Object) (Object, error)] *)
Definition Merge (obj next : Object) : result * gomap Object :=
  match clear_scan (Map next) with
  | Some r => (r, Map obj)
  | None => merge obj command.zero next
  end.

End Meta.

(** ** A key grammar for [getCmd] *)

(** Modelled from the spec: the directive tokens a key may carry, part of
    the missing [getCmd]. *)
Definition directives : list string :=
  [cmdReplace; cmdKeep; cmdFail; cmdAppend; cmdPrepend; cmdSplice; cmdClear].

(** Modelled from the spec: the tokens of a command combine, here with
    blanks between them; [fields_from] cuts [s] at every blank (part of
    the missing [getCmd]). *)
Fixpoint fields_from (s : string) (cur : string) : list string :=
  match s with
  | EmptyString => [cur]
  | String c s' =>
      if Ascii.eqb c " "%char then cur :: fields_from s' ""
      else fields_from s' (cur ++ String c "")%string
  end.

(** Modelled from the spec: the tokens of [s], part of the missing
    [getCmd]. *)
Definition fields (s : string) : list string :=
  filter (fun t => negb (t =? "")) (fields_from s "").

(** Modelled from the spec: reads the tokens between [((] and [))] into
    the command [c]; at most one directive, any token that is neither a
    directive nor the secret marker fails with [InvalidCommand] (part of
    the missing [getCmd]). *)
Fixpoint read_tokens (ts : list string) (c : command.t)
  : command.t * option error :=
  match ts with
  | [] => (c, None)
  | t :: ts' =>
      if t =? cmdSecret then
        read_tokens ts' (command.mk (command.cmd c) true (command.final c))
      else if existsb (String.eqb t) directives && (command.cmd c =? "") then
        read_tokens ts' (command.mk t (command.secret c) (command.final c))
      else (command.zero, Some ErrInvalidCommand)
  end.

(** Modelled from the spec: [getCmd], the parser of directive keys, whose
    body is missing from the sources.  The spec gives the shape of a key
    ([pass((secret))], [a((replace))]: the final key, then the tokens
    between [((] and [))]), the token spellings (the seven directives and
    the [secret] marker, which combines with a directive), and that an
    unrecognized token fails with [InvalidCommand].  A key without a
    command is its own final key. *)
Definition getCmd (key : string) : command.t * option error :=
  let n := String.length key in
  match index 0 "((" key with
  | Some i =>
      if (substring (n - 2) 2 key =? "))") && (i + 4 <=? n)%nat then
        read_tokens (fields (substring (i + 2) (n - i - 4) key))
                    (command.mk "" false (substring 0 i key))
      else (command.mk "" false key, None)
  | None => (command.mk "" false key, None)
  end.

(** ** Predicates used in the statements *)

(** No key of [l] is held twice. *)
Fixpoint uniqueb (l : list string) : bool :=
  match l with
  | [] => true
  | k :: l' => negb (existsb (String.eqb k) l') && uniqueb l'
  end.

(** Every map that a walk by [Kind] reaches holds each key once, as every
    Go map does. *)
Fixpoint well_keyed (obj : Object) : bool :=
  match Kind obj with
  | KArray => forallb well_keyed (Array obj)
  | KMap =>
      uniqueb (keys (Map obj))
      && forallb (fun kv => well_keyed (snd kv)) (Map obj)
  | KValue => true
  end.

(** A walk by [Kind] reaches no node of kind Map. *)
Fixpoint map_free (obj : Object) : bool :=
  match Kind obj with
  | KArray => forallb map_free (Array obj)
  | KMap => false
  | KValue => true
  end.

(** The scalars a decoder hands over as leaf values. *)
Definition scalar (v : any) : bool :=
  match v with
  | any_slice _ | any_map _ => false
  | _ => true
  end.

(** A tree as built from native structures: every leaf that a walk by
    [Kind] reaches holds a scalar, and every map holds each key once. *)
Fixpoint native_tree (obj : Object) : bool :=
  match Kind obj with
  | KArray => forallb native_tree (Array obj)
  | KMap =>
      uniqueb (keys (Map obj))
      && forallb (fun kv => native_tree (snd kv)) (Map obj)
  | KValue => scalar (Value obj)
  end.

Inductive option_rel {A B : Type} (R : A -> B -> Prop)
  : option A -> option B -> Prop :=
| option_rel_None : option_rel R None None
| option_rel_Some a b : R a b -> option_rel R (Some a) (Some b).

Unset Elimination Schemes.

(** Equality of two trees up to Origins and the secret flag: the same kind
    at every node, the same keys in every map, the same elements in the
    same order in every array, the same value at every leaf. *)
Inductive struct_eq : Object -> Object -> Prop :=
| struct_eq_Array a b :
    Kind a = KArray -> Kind b = KArray ->
    Forall2 struct_eq (Array a) (Array b) ->
    struct_eq a b
| struct_eq_Map a b :
    Kind a = KMap -> Kind b = KMap ->
    (forall k, option_rel struct_eq (map_get k (Map a)) (map_get k (Map b))) ->
    struct_eq a b
| struct_eq_Value a b :
    Kind a = KValue -> Kind b = KValue ->
    Value a = Value b ->
    struct_eq a b.

Set Elimination Schemes.

(** Every key of [l] parses without an error. *)
Definition all_parse (parse : string -> command.t * option error)
  (l : gomap Object) : bool :=
  forallb (fun kv => match parse (fst kv) with
                     | (_, None) => true
                     | (_, Some _) => false
                     end) l.

(** Every key of [l] parses without an error, and none to the clear
    directive: the scan of [Merge] runs to its end on [l]. *)
Definition no_clear (parse : string -> command.t * option error)
  (l : gomap Object) : bool :=
  forallb (fun kv => match parse (fst kv) with
                     | (c, None) => negb (command.cmd c =? cmdClear)
                     | (_, Some _) => false
                     end) l.

(** No key of [l] parses to the clear directive (a key that does not parse
    carries none). *)
Definition clear_free (parse : string -> command.t * option error)
  (l : gomap Object) : bool :=
  forallb (fun kv => match parse (fst kv) with
                     | (c, None) => negb (command.cmd c =? cmdClear)
                     | (_, Some _) => true
                     end) l.

(** Trees for the examples. *)
Definition leaf (n : Z) : Object := mkObject [] [] [] (any_num n) false.
Definition node (m : gomap Object) : Object := mkObject [] [] m any_nil false.
Definition arr (l : list Object) : Object := mkObject [] l [] any_nil false.
Definition origin1 : Origin := mkOrigin "a.yml" 1 1.
Definition origin2 : Origin := mkOrigin "b.yml" 2 3.

(** ** Origins as text *)

(** Go's [strconv.Itoa]. *)
Definition Itoa (n : Z) : string := NilZero.string_of_int (Z.to_int n).

(** [func (o Origin) String() string] *)
Definition Origin_String (o : Origin) : string :=
  let file := if (0 <? String.length (File o))%nat then File o else "unknown" in
  let line := if (0 <? Line o)%Z then Itoa (Line o) else "???" in
  let col := if (0 <? Col o)%Z then Itoa (Col o) else "???" in
  (file ++ ":" ++ line ++ "[" ++ col ++ "]")%string.

(** [func (obj Object) OriginString() string]; [String.concat] is Go's
    [strings.Join]. *)
Definition OriginString (obj : Object) : string :=
  String.concat ", " (map Origin_String (Origins obj)).

(** ** Fetch *)

(** The errors that [Fetch] returns: the error of [strconv.Atoi] on a
    segment, or [fmt.Errorf] with a text that ends in the wrapped error
    of the package ([%w]); [text] is what comes before it. *)
Inductive fetch_error : Type :=
| NumError (segment : string)
| Errorf (text : string) (wrapped : error).

(** [func getPath(asks, path []string, separater string) string]; [None]
    is the panic of [path[:len(path)-len(asks)]] on a negative bound. *)
Definition getPath (asks path : list string) (separater : string)
  : option string :=
  if (length asks <=? length path)%nat
  then Some (String.concat separater
               (firstn (length path - length asks) path))
  else None.

Section FetchDefs.

(** Go's [strconv.Atoi]; [None] is its error. *)
Variable Atoi : string -> option Z.

(** [func (obj Object) fetch(asks, path []string, separater string)
    (Object, error)]; [None] is a panic. *)
Fixpoint fetch (obj : Object) (asks path : list string) (separater : string)
  {struct asks} : option (Object * option fetch_error) :=
  match asks with
  | [] => Some (obj, None)
  | ask :: rest =>
      let not_found :=
        match getPath rest path separater with
        | None => None
        | Some p =>
            Some (zeroObject,
                  Some (Errorf ("with '" ++ p ++ "' ")%string ErrNotFound))
        end in
      match Kind obj with
      | KMap =>
          match map_get ask (Map obj) with
          | Some next => fetch next rest path separater
          | None => not_found
          end
      | KArray =>
          match Atoi ask with
          | None => Some (zeroObject, Some (NumError ask))
          | Some idx =>
              if (0 <=? idx)%Z && (idx <? Z.of_nat (length (Array obj)))%Z
              then fetch (nth (Z.to_nat idx) (Array obj) zeroObject)
                         rest path separater
              else
                match getPath rest path separater with
                | None => None
                | Some p =>
                    Some (zeroObject,
                          Some (Errorf
                                  ("with array len of "
                                   ++ Itoa (Z.of_nat (length (Array obj)))
                                   ++ " and '" ++ p ++ "' ")%string
                                  ErrArrayOutOfBounds))
                end
          end
      | KValue => not_found
      end
  end.

(** [func (obj Object) Fetch(asks []string, separater string)
    (Object, error)] *)
Definition Fetch (obj : Object) (asks : list string) (separater : string)
  : option (Object * option fetch_error) :=
  fetch obj asks asks separater.

End FetchDefs.

(** Go's [strconv.Atoi] on a 64-bit platform: an optional sign, then
    decimal digits, at least one, with a value that fits an [int]. *)
Definition digit_val (c : ascii) : option Z :=
  let n := nat_of_ascii c in
  if (48 <=? n)%nat && (n <=? 57)%nat then Some (Z.of_nat (n - 48)) else None.

Fixpoint digits_val (s : string) (acc : Z) : option Z :=
  match s with
  | EmptyString => Some acc
  | String c s' =>
      match digit_val c with
      | None => None
      | Some d => digits_val s' (10 * acc + d)%Z
      end
  end.

Definition Atoi (s : string) : option Z :=
  let '(neg, ds) :=
    match s with
    | String "-"%char s' => (true, s')
    | String "+"%char s' => (false, s')
    | _ => (false, s)
    end in
  match ds with
  | EmptyString => None
  | _ =>
      match digits_val ds 0 with
      | None => None
      | Some v =>
          let v := if neg then (- v)%Z else v in
          if (- 2 ^ 63 <=? v)%Z && (v <? 2 ^ 63)%Z then Some v else None
      end
  end.

(** ** Redaction *)

Definition redactedText := "REDACTED".

(** [func (obj Object) ToRedacted() Object] *)
Fixpoint ToRedacted (obj : Object) : Object :=
  if secret obj then mkObject [] [] [] (any_string redactedText) true
  else
    match Kind obj with
    | KArray => with_Array obj (map ToRedacted (Array obj))
    | KMap => with_Map obj (range_set ToRedacted (Map obj) [])
    | KValue => obj
    end.

(** ** Further predicates *)

Unset Elimination Schemes.

(** In a redacted tree a secret node that a walk by [Kind] reaches holds
    nothing but the text [REDACTED]. *)
Inductive Redacted : Object -> Prop :=
| Redacted_secret :
    Redacted (mkObject [] [] [] (any_string redactedText) true)
| Redacted_Array o :
    secret o = false -> Kind o = KArray ->
    Forall Redacted (Array o) -> Redacted o
| Redacted_Map o :
    secret o = false -> Kind o = KMap ->
    Forall (fun kv => Redacted (snd kv)) (Map o) -> Redacted o
| Redacted_Value o :
    secret o = false -> Kind o = KValue -> Redacted o.

Set Elimination Schemes.

(** A walk by [Kind] reaches no secret node. *)
Fixpoint secret_free (obj : Object) : bool :=
  negb (secret obj)
  && match Kind obj with
     | KArray => forallb secret_free (Array obj)
     | KMap => forallb (fun kv => secret_free (snd kv)) (Map obj)
     | KValue => true
     end.

(** The key [k] parses to itself, with no directive and no secret
    marker. *)
Definition plain_key (parse : string -> command.t * option error)
  (k : string) : bool :=
  match parse k with
  | (c, None) =>
      (command.cmd c =? "") && negb (command.secret c)
      && (command.final c =? k)
  | (_, Some _) => false
  end.

(** Every key that a walk by [Kind] reaches is plain. *)
Fixpoint plain (parse : string -> command.t * option error) (obj : Object)
  : bool :=
  match Kind obj with
  | KArray => forallb (plain parse) (Array obj)
  | KMap =>
      forallb (fun kv => plain_key parse (fst kv) && plain parse (snd kv))
              (Map obj)
  | KValue => true
  end.


(** A native value without an empty slice or an empty map, whose maps
    hold each key once. *)
Fixpoint dense (r : any) : bool :=
  match r with
  | any_slice l => negb (Nat.eqb (length l) 0) && forallb dense l
  | any_map m =>
      negb (Nat.eqb (length m) 0) && uniqueb (keys m)
      && forallb (fun kv => dense (snd kv)) m
  | _ => true
  end.

(** * Properties *)

(** ** Induction on trees *)

Section ObjectInduction.
Variable P : Object -> Prop.
Hypothesis step :
  forall og a m v sc,
    Forall P a -> Forall (fun kv => P (snd kv)) m ->
    P (mkObject og a m v sc).

Fixpoint Object_ind (o : Object) : P o :=
  match o with
  | mkObject og a m v sc =>
      step og a m v sc
        ((fix elems (l : list Object) : Forall P l :=
            match l with
            | [] => Forall_nil P
            | x :: l' => Forall_cons x (Object_ind x) (elems l')
            end) a)
        ((fix entries (l : gomap Object) : Forall (fun kv => P (snd kv)) l :=
            match l with
            | [] => Forall_nil _
            | kv :: l' =>
                Forall_cons (P := fun kv => P (snd kv)) kv
                  (Object_ind (snd kv)) (entries l')
            end) m)
  end.
End ObjectInduction.

Section AnyInduction.
Variable P : any -> Prop.
Hypothesis on_nil : P any_nil.
Hypothesis on_bool : forall b, P (any_bool b).
Hypothesis on_num : forall n, P (any_num n).
Hypothesis on_string : forall s, P (any_string s).
Hypothesis on_slice : forall l, Forall P l -> P (any_slice l).
Hypothesis on_map :
  forall m, Forall (fun kv => P (snd kv)) m -> P (any_map m).

Fixpoint any_ind (r : any) : P r :=
  match r with
  | any_nil => on_nil
  | any_bool b => on_bool b
  | any_num n => on_num n
  | any_string s => on_string s
  | any_slice l =>
      on_slice l
        ((fix elems (l : list any) : Forall P l :=
            match l with
            | [] => Forall_nil P
            | x :: l' => Forall_cons x (any_ind x) (elems l')
            end) l)
  | any_map m =>
      on_map m
        ((fix entries (l : gomap any) : Forall (fun kv => P (snd kv)) l :=
            match l with
            | [] => Forall_nil _
            | kv :: l' =>
                Forall_cons (P := fun kv => P (snd kv)) kv
                  (any_ind (snd kv)) (entries l')
            end) m)
  end.
End AnyInduction.

(** ** Map reads, writes and ranges *)

Lemma map_get_set {A : Type} (k k' : string) (v : A) (m : gomap A) :
  map_get k (map_set k' v m) = if k =? k' then Some v else map_get k m.
Proof.
  induction m as [|[k0 v0] m IH]; simpl.
  - reflexivity.
  - destruct (String.eqb_spec k' k0) as [->|Hne]; simpl.
    + destruct (k =? k0); reflexivity.
    + rewrite IH. destruct (String.eqb_spec k k0) as [->|Hne'].
      * destruct (String.eqb_spec k0 k') as [->|_]; [contradiction|reflexivity].
      * reflexivity.
Qed.

Lemma map_set_keeps {A : Type} (k k' : string) (v : A) (m : gomap A) :
  map_get k m <> None -> map_get k (map_set k' v m) <> None.
Proof.
  intros H. rewrite map_get_set. destruct (k =? k'); [discriminate|exact H].
Qed.

Lemma uniqueb_NoDup (l : list string) : uniqueb l = true <-> NoDup l.
Proof.
  induction l as [|k l IH]; simpl.
  - split; [constructor | reflexivity].
  - rewrite andb_true_iff, negb_true_iff, IH. split.
    + intros [Hn Hd]. constructor; [|exact Hd].
      intros Hin. assert (existsb (String.eqb k) l = true) as Ht.
      { apply existsb_exists. exists k. split; [exact Hin|apply String.eqb_refl]. }
      congruence.
    + intros H. inversion H as [|? ? Hn Hd]; subst. split; [|exact Hd].
      destruct (existsb (String.eqb k) l) eqn:E; [|reflexivity].
      apply existsb_exists in E. destruct E as [x [Hin Hx]].
      apply String.eqb_eq in Hx. subst x. contradiction.
Qed.

Lemma map_set_fresh {A : Type} (k : string) (v : A) (m : gomap A) :
  ~ In k (keys m) -> map_set k v m = m ++ [(k, v)].
Proof.
  induction m as [|[k0 v0] m IH]; simpl; intros H.
  - reflexivity.
  - destruct (String.eqb_spec k k0) as [->|Hne].
    + exfalso. apply H. left. reflexivity.
    + rewrite IH; [reflexivity|]. intros Hin. apply H. right. exact Hin.
Qed.

Lemma keys_app {A : Type} (m l : gomap A) : keys (m ++ l) = keys m ++ keys l.
Proof. apply map_app. Qed.

(** Over entries with fresh, distinct keys a range that sets each key
    appends the entries in the order of the range. *)
Lemma range_set_unique {A B : Type} (f : A -> B) (l : gomap A) :
  forall m : gomap B,
    NoDup (keys m ++ keys l) ->
    range_set f l m = m ++ map (fun kv => (fst kv, f (snd kv))) l.
Proof.
  unfold range_set.
  induction l as [|[k v] l IH]; simpl; intros m H.
  - rewrite app_nil_r. reflexivity.
  - assert (~ In k (keys m)) as Hk.
    { apply NoDup_remove_2 in H. intros Hin. apply H, in_or_app. left.
      exact Hin. }
    rewrite (map_set_fresh k (f v) m Hk), IH.
    + rewrite <- app_assoc. reflexivity.
    + rewrite keys_app, <- app_assoc. exact H.
Qed.

Lemma map_set_NoDup {A : Type} (k : string) (v : A) (m : gomap A) :
  NoDup (keys m) -> NoDup (keys (map_set k v m)).
Proof.
  induction m as [|[k0 v0] m IH]; simpl; intros H.
  - constructor; [intros []|constructor].
  - inversion H as [|? ? Hn Hd]; subst.
    destruct (String.eqb_spec k k0) as [->|Hne]; simpl.
    + exact H.
    + constructor; [|apply IH; exact Hd].
      intros Hin. apply Hn. clear - Hin Hne.
      induction m as [|[k1 v1] m IH]; simpl in *.
      * destruct Hin as [Heq|[]]. congruence.
      * destruct (String.eqb_spec k k1) as [->|Hne1]; simpl in Hin.
        -- exact Hin.
        -- destruct Hin as [Heq|Hin]; [left; exact Heq|right; exact (IH Hin)].
Qed.

Lemma range_set_NoDup {A B : Type} (f : A -> B) (l : gomap A) :
  forall m : gomap B, NoDup (keys m) -> NoDup (keys (range_set f l m)).
Proof.
  unfold range_set.
  induction l as [|[k v] l IH]; simpl; intros m H.
  - exact H.
  - apply IH, map_set_NoDup, H.
Qed.

Lemma map_set_Forall {A : Type} (Q : A -> Prop) (k : string) (v : A)
  (m : gomap A) :
  Q v -> Forall (fun kv => Q (snd kv)) m ->
  Forall (fun kv => Q (snd kv)) (map_set k v m).
Proof.
  intros Hv. induction 1 as [|[k0 v0] m H0 Hm IH]; simpl.
  - constructor; [exact Hv|constructor].
  - destruct (k =? k0); constructor; auto.
Qed.

Lemma range_set_Forall {A B : Type} (f : A -> B) (Q : B -> Prop)
  (l : gomap A) :
  Forall (fun kv => Q (f (snd kv))) l ->
  forall m : gomap B,
    Forall (fun kv => Q (snd kv)) m ->
    Forall (fun kv => Q (snd kv)) (range_set f l m).
Proof.
  unfold range_set.
  induction 1 as [|[k v] l Hv Hl IH]; simpl; intros m Hm.
  - exact Hm.
  - apply IH, map_set_Forall; assumption.
Qed.

Lemma Kind_cases (o : Object) :
  Kind o = KArray \/ Kind o = KMap \/ Kind o = KValue.
Proof. destruct (Kind o); auto. Qed.

Ltac break_match :=
  match goal with
  | |- context [match ?x with _ => _ end] =>
      let E := fresh "E" in destruct x eqn:E
  end.

Section Facts.
Variable parse : string -> command.t * option error.

Lemma clear_scan_None (l : gomap Object) :
  no_clear parse l = true -> clear_scan parse l = None.
Proof.
  induction l as [|[k v] l IH]; simpl; [reflexivity|].
  destruct (parse k) as [c [e|]]; [discriminate|].
  destruct (command.cmd c =? cmdClear); simpl; [discriminate|exact IH].
Qed.

Lemma clear_scan_found (pre post : gomap Object) (key : string)
  (val : Object) (c : command.t) :
  all_parse parse pre = true ->
  parse key = (c, None) -> command.cmd c = cmdClear ->
  clear_scan parse (pre ++ (key, val) :: post) = Some (zeroObject, None).
Proof.
  intros Hpre Hkey Hc.
  induction pre as [|[k v] pre IH]; simpl.
  - rewrite Hkey, Hc. reflexivity.
  - simpl in Hpre. destruct (parse k) as [c' [e|]]; [discriminate|].
    destruct (command.cmd c' =? cmdClear); [reflexivity|].
    apply IH. exact Hpre.
Qed.

Lemma resolveCommands_leaf (o : Object) (s : bool) :
  Kind o = KValue ->
  resolveCommands parse o s = (if s then with_secret o true else o, None).
Proof.
  intros H. destruct o as [og a m v sc]. simpl. unfold Kind in H. simpl in H.
  unfold Kind; simpl.
  destruct (0 <? length a)%nat; [discriminate|].
  destruct (0 <? length m)%nat; [discriminate|]. reflexivity.
Qed.

(** *** The splice loop *)

Section SpliceFacts.
Variable F : Object -> command.t -> Object -> result * gomap Object.

(** The loop over [l1 ++ l2] is the loop over [l1] followed, when that
    one ends without an error, by the loop over [l2]. *)
Lemma splice_range_app (l1 l2 : gomap Object) (cur : gomap Object) :
  splice_range parse F (l1 ++ l2) cur =
    match splice_range parse F l1 cur with
    | (Some e, m) => (Some e, m)
    | (None, m) => splice_range parse F l2 m
    end.
Proof.
  revert cur. induction l1 as [|[key val] l1 IH]; intros cur; simpl.
  - reflexivity.
  - repeat (break_match; try reflexivity; try apply IH).
Qed.

(** The loop never removes a key. *)
Lemma splice_range_keeps (k : string) (l : gomap Object) :
  forall (cur m : gomap Object) (r : option error),
    splice_range parse F l cur = (r, m) ->
    map_get k cur <> None -> map_get k m <> None.
Proof.
  induction l as [|[key val] l IH]; intros cur m r; simpl.
  - intros H; inversion H; subst; auto.
  - repeat break_match;
      intros H Hk;
      try (inversion H; subst; first [exact Hk | apply map_set_keeps; exact Hk]);
      try (eapply IH; [exact H|]; first [exact Hk | apply map_set_keeps; exact Hk]).
Qed.
End SpliceFacts.

Lemma getValidCmd_ok (key : string) (val : Object) (c : command.t) :
  parse key = (c, None) ->
  existsb (String.eqb (command.cmd c)) (valid_cmds (Kind val)) = true ->
  getValidCmd parse key val = (c, None).
Proof. intros Hp Hv. unfold getValidCmd. rewrite Hp, Hv. reflexivity. Qed.

Lemma getValidCmd_invalid (key : string) (val : Object) (c : command.t) :
  parse key = (c, None) ->
  existsb (String.eqb (command.cmd c)) (valid_cmds (Kind val)) = false ->
  getValidCmd parse key val = (command.zero, Some ErrInvalidCommand).
Proof. intros Hp Hv. unfold getValidCmd. rewrite Hp, Hv. reflexivity. Qed.

(** [merge] unfolded once. *)
Lemma merge_Map_splice (obj next : Object) (cmd : command.t) :
  Kind obj = KMap ->
  (command.cmd cmd =? cmdSplice) || (command.cmd cmd =? "") = true ->
  merge parse obj cmd next =
    match splice_range parse (merge parse) (Map next) (Map obj) with
    | (Some e, m) => ((zeroObject, Some e), m)
    | (None, m) =>
        ((with_secret (with_Map obj m) (command.secret cmd), None), m)
    end.
Proof.
  intros Hk Hc. destruct next as [og a m v sc]. simpl. rewrite Hk, Hc.
  reflexivity.
Qed.

(** Every error comes with the zero Object. *)
Lemma merge_error_zero (obj next : Object) (cmd : command.t)
  (r : Object) (e : error) (m : gomap Object) :
  merge parse obj cmd next = ((r, Some e), m) -> r = zeroObject.
Proof.
  destruct next as [og a mp v sc]. simpl.
  repeat break_match; intros H; inversion H; reflexivity.
Qed.

Lemma Merge_error_zero (obj next : Object)
  (r : Object) (e : error) (m : gomap Object) :
  Merge parse obj next = ((r, Some e), m) -> r = zeroObject.
Proof.
  unfold Merge. destruct (clear_scan parse (Map next)) as [[r' o]|] eqn:E.
  - intros H. inversion H; subst. clear H.
    induction (Map next) as [|[k v] l IH]; simpl in E; [discriminate|].
    destruct (parse k) as [c [e'|]].
    + inversion E. reflexivity.
    + destruct (command.cmd c =? cmdClear); [inversion E|auto].
  - apply merge_error_zero.
Qed.

(** *** Keys present on both sides with values of different kinds *)

(** C2, as amended.  In the splice loop, at a key whose final key is
    present in [base] with a Map value while the incoming value is an
    Array: with no directive, or with replace, the key takes the incoming
    Array with its commands resolved and the loop goes on (it stops with
    the error of the resolution if that fails); with keep, the value of
    [base] stays; with fail, the loop stops with [ErrConflict]. *)
Theorem splice_Map_against_Array (key : string) (val existing : Object)
  (c : command.t) (l cur : gomap Object) :
  parse key = (c, None) ->
  map_get (command.final c) cur = Some existing ->
  Kind existing = KMap ->
  Kind val = KArray ->
  (command.cmd c = "" \/ command.cmd c = cmdReplace ->
   splice_range parse (merge parse) ((key, val) :: l) cur =
     match resolveCommands parse val (command.secret c) with
     | (_, Some e) => (Some e, cur)
     | (v, None) =>
         splice_range parse (merge parse) l (map_set (command.final c) v cur)
     end)
  /\ (command.cmd c = cmdKeep ->
      splice_range parse (merge parse) ((key, val) :: l) cur =
        splice_range parse (merge parse) l
          (map_set (command.final c) existing cur))
  /\ (command.cmd c = cmdFail ->
      splice_range parse (merge parse) ((key, val) :: l) cur =
        (Some ErrConflict, cur)).
Proof.
  intros Hp Hg He Hv.
  repeat split; intros Hc; simpl;
    rewrite (getValidCmd_ok key val c Hp),
      ?Hg, ?He, ?Hv by (rewrite Hv; destruct Hc as [-> | ->] || rewrite Hc;
                         reflexivity);
    simpl; (destruct Hc as [-> | ->] || rewrite Hc); reflexivity.
Qed.

(** C3, as amended.  In the splice loop, at a key whose final key is
    present in [base] with a value of another kind than the incoming one:
    a directive that [getValidCmd] does not admit for the kind of the
    incoming value stops the loop with [ErrInvalidCommand]; the splice
    directive, admitted for an incoming Map, makes the key take the
    incoming value with its commands resolved, as replace does. *)
Theorem splice_kind_mismatch (key : string) (val existing : Object)
  (c : command.t) (l cur : gomap Object) :
  parse key = (c, None) ->
  map_get (command.final c) cur = Some existing ->
  Kind existing <> Kind val ->
  (existsb (String.eqb (command.cmd c)) (valid_cmds (Kind val)) = false ->
   splice_range parse (merge parse) ((key, val) :: l) cur =
     (Some ErrInvalidCommand, cur))
  /\ (command.cmd c = cmdSplice -> Kind val = KMap ->
      splice_range parse (merge parse) ((key, val) :: l) cur =
        match resolveCommands parse val (command.secret c) with
        | (_, Some e) => (Some e, cur)
        | (v, None) =>
            splice_range parse (merge parse) l
              (map_set (command.final c) v cur)
        end).
Proof.
  intros Hp Hg Hk. split.
  - intros Hv. simpl. rewrite (getValidCmd_invalid key val c Hp Hv).
    reflexivity.
  - intros Hc Hm. simpl.
    rewrite (getValidCmd_ok key val c Hp) by (rewrite Hm, Hc; reflexivity).
    rewrite Hg.
    assert (kind_eqb (Kind existing) (Kind val) = false) as ->
      by (destruct (Kind existing), (Kind val); simpl; congruence).
    rewrite Hc. reflexivity.
Qed.

(** *** The fail directive *)

(** C5.  Merging a node of kind Value with an incoming value under the
    fail directive returns [ErrConflict] and the zero Object.  So does
    [Merge] when [base] is of kind Map and holds such a node under the key
    [k], and the direct map of [incoming] holds a key that parses to fail
    on [k] with a value of kind Value, once the loop reaches that key
    (the keys visited before it merge without an error, none carries
    clear).  The tree that [Merge] returns next to any error is the zero
    Object. *)
Theorem Merge_fail_Conflict (base next : Object) (pre post : gomap Object)
  (key : string) (val existing : Object) (c : command.t)
  (cur : gomap Object) :
  Kind base = KMap ->
  map_get (command.final c) (Map base) = Some existing ->
  Kind existing = KValue ->
  Map next = pre ++ (key, val) :: post ->
  parse key = (c, None) ->
  command.cmd c = cmdFail ->
  Kind val = KValue ->
  no_clear parse (Map next) = true ->
  splice_range parse (merge parse) pre (Map base) = (None, cur) ->
  fst (merge parse existing c val) = (zeroObject, Some ErrConflict)
  /\ fst (Merge parse base next) = (zeroObject, Some ErrConflict)
  /\ (forall obj nxt r e m,
        Merge parse obj nxt = ((r, Some e), m) -> r = zeroObject).
Proof.
  intros Hb Hg Hex Hm Hp Hc Hv Hnc Hpre. split; [|split].
  3: { intros obj nxt r e m. apply Merge_error_zero. }
  { destruct val as [og a mp v sc]. simpl. rewrite Hex, Hc. reflexivity. }
  unfold Merge. rewrite (clear_scan_None _ Hnc).
  rewrite merge_Map_splice by (assumption || reflexivity).
  rewrite Hm, splice_range_app, Hpre. simpl.
  rewrite (getValidCmd_ok key val c Hp) by (rewrite Hv, Hc; reflexivity).
  assert (map_get (command.final c) cur <> None) as Hcur.
  { eapply splice_range_keeps; [exact Hpre|]. rewrite Hg. discriminate. }
  destruct (map_get (command.final c) cur) as [ex|]; [|contradiction].
  destruct (kind_eqb (Kind ex) (Kind val)) eqn:Ek.
  - assert (Kind ex = KValue) as Hk
      by (rewrite Hv in Ek; destruct (Kind ex); simpl in Ek; congruence).
    destruct val as [og a mp v sc]. simpl. rewrite Hk, Hc. reflexivity.
  - rewrite Hc. reflexivity.
Qed.

(** *** Arrays *)

Lemma resolveCommands_Array (o : Object) (s : bool) :
  Kind o = KArray ->
  resolveCommands parse o s =
    match each (fun val => resolveCommands parse val false) (Array o) with
    | (_, Some e) => (zeroObject, Some e)
    | (array, None) =>
        (with_Array (if s then with_secret o true else o) array, None)
    end.
Proof.
  intros H. destruct o as [og a m v sc]. simpl. rewrite H. reflexivity.
Qed.

Lemma merge_Array (obj next : Object) (cmd : command.t) :
  Kind obj = KArray ->
  merge parse obj cmd next =
    match resolveCommands parse next (secret obj) with
    | (_, Some e) => ((zeroObject, Some e), Map obj)
    | (next, None) =>
        if (command.cmd cmd =? cmdAppend) || (command.cmd cmd =? "") then
          ((with_Array
              (with_Origins
                 (if secret obj || secret next || command.secret cmd
                  then with_secret obj true else obj)
                 (Origins obj ++ Origins next))
              (Array obj ++ Array next), None), Map obj)
        else if command.cmd cmd =? cmdPrepend then
          ((with_Array
              (with_Origins
                 (if secret obj || secret next || command.secret cmd
                  then with_secret obj true else obj)
                 (Origins next ++ Origins obj))
              (Array next ++ Array obj), None), Map obj)
        else if command.cmd cmd =? cmdReplace then ((next, None), Map obj)
        else if command.cmd cmd =? cmdKeep then ((obj, None), Map obj)
        else if command.cmd cmd =? cmdFail then
          ((zeroObject, Some ErrConflict), Map obj)
        else ((obj, None), Map obj)
    end.
Proof.
  intros H. destruct next as [og a m v sc]. simpl. rewrite H. reflexivity.
Qed.

Lemma each_same {A : Type} (f : A -> A * option error) (l : list A) :
  Forall (fun x => f x = (x, None)) l -> each f l = (l, None).
Proof.
  induction 1 as [|x l Hx Hl IH]; simpl; [reflexivity|].
  rewrite Hx, IH. reflexivity.
Qed.

(** A tree without a map has no command to resolve. *)
Lemma resolveCommands_map_free (o : Object) :
  map_free o = true -> resolveCommands parse o false = (o, None).
Proof.
  induction o as [og a m v sc IHa _] using Object_ind.
  set (o := mkObject og a m v sc).
  assert (map_free o =
            match Kind o with
            | KArray => forallb map_free (Array o)
            | KMap => false
            | KValue => true
            end) as -> by reflexivity.
  destruct (Kind o) eqn:Hk; intros H; [|discriminate|].
  - rewrite (resolveCommands_Array o false Hk), each_same.
    + destruct o; reflexivity.
    + simpl. rewrite forallb_forall in H. simpl in H.
      rewrite Forall_forall in IHa |- *. intros x Hx. auto.
  - rewrite (resolveCommands_leaf o false Hk). reflexivity.
Qed.

(** C6, as amended.  When two nodes of kind Array are merged and every
    element of the incoming one resolves its commands without an error,
    to the elements [elems]: with no directive or with append, the result
    holds the elements of [base] followed by [elems], and the Origins of
    [base] followed by those of [incoming]; with prepend, [elems] followed
    by the elements of [base], and the Origins of [incoming] followed by
    those of [base].  When no element of [incoming] holds a map, [elems]
    are the elements of [incoming] themselves. *)
Theorem merge_Array_order (obj next : Object) (cmd : command.t)
  (elems : list Object) :
  Kind obj = KArray ->
  Kind next = KArray ->
  each (fun val => resolveCommands parse val false) (Array next)
    = (elems, None) ->
  (command.cmd cmd = "" \/ command.cmd cmd = cmdAppend ->
   exists rv, fst (merge parse obj cmd next) = (rv, None)
              /\ Array rv = Array obj ++ elems
              /\ Origins rv = Origins obj ++ Origins next)
  /\ (command.cmd cmd = cmdPrepend ->
      exists rv, fst (merge parse obj cmd next) = (rv, None)
                 /\ Array rv = elems ++ Array obj
                 /\ Origins rv = Origins next ++ Origins obj)
  /\ (forallb map_free (Array next) = true -> elems = Array next).
Proof.
  intros Ho Hn He.
  assert (forall s : bool,
             Origins (if s then with_secret next true else next)
             = Origins next) as Hog by (intros []; reflexivity).
  split; [|split].
  3: { intros Hf. rewrite each_same in He; [congruence|].
       rewrite forallb_forall in Hf. apply Forall_forall. intros x Hx.
       apply resolveCommands_map_free. auto. }
  all: intros Hc; rewrite (merge_Array obj next cmd Ho),
    (resolveCommands_Array next _ Hn), He;
    (destruct Hc as [-> | ->] || rewrite Hc); simpl;
    eexists; (split; [reflexivity|]); simpl; rewrite Hog; split; reflexivity.
Qed.

(** *** What Merge does to the map of its receiver *)

Lemma merge_not_Map (obj next : Object) (cmd : command.t) :
  Kind obj <> KMap -> snd (merge parse obj cmd next) = Map obj.
Proof.
  intros H. destruct next as [og a m v sc]. simpl.
  destruct (Kind obj); [| contradiction |];
    repeat break_match; reflexivity.
Qed.

(** C7, as amended.  [Merge] leaves the map behind [base.Map] as it was
    when [base] is of kind Array or Value.  When [base] is of kind Map
    and the scan for clear runs to its end, the splice loop writes into
    that very map: a key held before the call is still held after it, and
    on success the returned tree holds the map as the call left it. *)
Theorem Merge_receiver_map (base next : Object) :
  (Kind base <> KMap -> snd (Merge parse base next) = Map base)
  /\ (Kind base = KMap -> no_clear parse (Map next) = true ->
      (forall k, map_get k (Map base) <> None ->
                 map_get k (snd (Merge parse base next)) <> None)
      /\ (forall rv, fst (Merge parse base next) = (rv, None) ->
                     Map rv = snd (Merge parse base next))).
Proof.
  split.
  - intros H. unfold Merge. destruct (clear_scan parse (Map next)).
    + reflexivity.
    + apply merge_not_Map. exact H.
  - intros Hk Hc. unfold Merge. rewrite (clear_scan_None _ Hc).
    rewrite merge_Map_splice by (assumption || reflexivity).
    destruct (splice_range parse (merge parse) (Map next) (Map base))
      as [[e|] m] eqn:E; simpl; split.
    + intros k. eapply splice_range_keeps. exact E.
    + intros rv H. discriminate H.
    + intros k. eapply splice_range_keeps. exact E.
    + intros rv H. inversion H. reflexivity.
Qed.

(** *** Merging an empty tree *)

(** C1, as amended.  [Merge(t, Object{})] returns without error: [t]
    itself when [t] is of kind Array; [t] with its secret flag cleared
    when [t] is of kind Map; the empty incoming tree when [t] is of kind
    Value.  The map behind [t.Map] is left as it was. *)
Theorem Merge_empty_incoming (t : Object) :
  Merge parse t zeroObject =
    ((match Kind t with
      | KArray => t
      | KMap => with_secret t false
      | KValue => zeroObject
      end, None), Map t).
Proof.
  unfold Merge. simpl clear_scan. cbv iota.
  destruct t as [og a m v sc]. simpl.
  destruct (Kind (mkObject og a m v sc)); simpl.
  - destruct sc; simpl; rewrite !app_nil_r; reflexivity.
  - reflexivity.
  - reflexivity.
Qed.

(** *** The clear directive *)

(** C4, as amended.  If a key of incoming's direct map parses to the clear
    directive, and every key that the scan visits before it parses without
    an error, [Merge] returns the empty tree and no error, whatever [base]
    holds, and leaves the map behind [base.Map] as it was. *)
Theorem Merge_clear (base next : Object) (pre post : gomap Object)
  (key : string) (val : Object) (c : command.t) :
  Map next = pre ++ (key, val) :: post ->
  all_parse parse pre = true ->
  parse key = (c, None) ->
  command.cmd c = cmdClear ->
  Merge parse base next = ((zeroObject, None), Map base).
Proof.
  intros Hm Hpre Hkey Hc. unfold Merge.
  rewrite Hm, (clear_scan_found pre post key val c Hpre Hkey Hc).
  reflexivity.
Qed.

(** *** Merging into a tree of kind Value *)

(** C10, as amended.  When [base] is of kind Value and every direct key of
    [incoming] parses, none of them to the clear directive, [Merge] returns
    [incoming] as it was passed in, keys unresolved, with the secret flag
    of its root cleared. *)
Theorem Merge_into_Value (base next : Object) :
  Kind base = KValue ->
  no_clear parse (Map next) = true ->
  Merge parse base next = ((with_secret next false, None), Map base).
Proof.
  intros Hk Hc. unfold Merge. rewrite (clear_scan_None _ Hc).
  destruct next as [og a m v sc]. simpl. rewrite Hk. reflexivity.
Qed.
End Facts.

(** ** AlterKeyCase *)

Lemma each_panic_same {A : Type} (f : A -> option A) (l : list A) :
  Forall (fun x => f x = Some x) l -> each_panic f l = Some l.
Proof.
  induction 1 as [|x l Hx Hl IH]; simpl; [reflexivity|].
  rewrite Hx, IH. reflexivity.
Qed.

Lemma range_set_panic_same {A : Type} (f : A -> option A) (l : gomap A) :
  Forall (fun kv => f (snd kv) = Some (snd kv)) l ->
  forall m : gomap A,
    NoDup (keys m ++ keys l) ->
    range_set_panic f (Some (fun key => key)) l m = Some (m ++ l).
Proof.
  induction 1 as [|[k v] l Hv Hl IH]; simpl; intros m H.
  - rewrite app_nil_r. reflexivity.
  - simpl in Hv. rewrite Hv.
    assert (~ In k (keys m)) as Hk.
    { apply NoDup_remove_2 in H. intros Hin. apply H, in_or_app. left.
      exact Hin. }
    rewrite (map_set_fresh k v m Hk), IH.
    + rewrite <- app_assoc. reflexivity.
    + rewrite keys_app, <- app_assoc. exact H.
Qed.

Lemma with_Array_same (o : Object) : with_Array o (Array o) = o.
Proof. destruct o; reflexivity. Qed.

Lemma AlterKeyCase_unfold (obj : Object) (to : option (string -> string)) :
  AlterKeyCase obj to =
    match Kind obj with
    | KArray =>
        match each_panic (fun val => AlterKeyCase val to) (Array obj) with
        | None => None
        | Some array => Some (with_Array obj array)
        end
    | KMap =>
        match range_set_panic (fun val => AlterKeyCase val to) to (Map obj) []
        with
        | None => None
        | Some m => Some (with_Map obj m)
        end
    | KValue => Some obj
    end.
Proof. destruct obj; reflexivity. Qed.

Lemma map_free_unfold (obj : Object) :
  map_free obj =
    match Kind obj with
    | KArray => forallb map_free (Array obj)
    | KMap => false
    | KValue => true
    end.
Proof. destruct obj; reflexivity. Qed.

Lemma well_keyed_unfold (obj : Object) :
  well_keyed obj =
    match Kind obj with
    | KArray => forallb well_keyed (Array obj)
    | KMap =>
        uniqueb (keys (Map obj))
        && forallb (fun kv => well_keyed (snd kv)) (Map obj)
    | KValue => true
    end.
Proof. destruct obj; reflexivity. Qed.

Lemma AlterKeyCase_map_free (to : option (string -> string)) (obj : Object) :
  map_free obj = true -> AlterKeyCase obj to = Some obj.
Proof.
  induction obj as [og a m v sc IHa _] using Object_ind.
  set (o := mkObject og a m v sc).
  rewrite (map_free_unfold o), (AlterKeyCase_unfold o).
  destruct (Kind o); intros H; [|discriminate|reflexivity].
  rewrite each_panic_same; [rewrite with_Array_same; reflexivity|].
  simpl. rewrite forallb_forall in H. simpl in H.
  rewrite Forall_forall in IHa |- *. intros x Hx. auto.
Qed.

Lemma AlterKeyCase_identity (obj : Object) :
  well_keyed obj = true -> AlterKeyCase obj (Some (fun key => key)) = Some obj.
Proof.
  induction obj as [og a m v sc IHa IHm] using Object_ind.
  set (o := mkObject og a m v sc).
  rewrite (well_keyed_unfold o), (AlterKeyCase_unfold o).
  destruct (Kind o); intros H; [| |reflexivity].
  - rewrite each_panic_same; [rewrite with_Array_same; reflexivity|].
    simpl. rewrite forallb_forall in H. simpl in H.
    rewrite Forall_forall in IHa |- *. intros x Hx. auto.
  - apply andb_true_iff in H. destruct H as [Hu Hw]. simpl in Hu, Hw.
    rewrite range_set_panic_same.
    + simpl. reflexivity.
    + simpl. rewrite forallb_forall in Hw.
      rewrite Forall_forall in IHm |- *. intros kv Hkv. auto.
    + simpl. apply uniqueb_NoDup. exact Hu.
Qed.

(** C9, as amended.  With a nil transform [AlterKeyCase] returns its
    input on every tree in which it reaches no node of kind Map; with the
    identity transform it returns its input on every tree whose maps hold
    each key once. *)
Theorem AlterKeyCase_noop (obj : Object) :
  (map_free obj = true -> AlterKeyCase obj None = Some obj)
  /\ (well_keyed obj = true ->
      AlterKeyCase obj (Some (fun key => key)) = Some obj).
Proof.
  split; [apply AlterKeyCase_map_free | apply AlterKeyCase_identity].
Qed.

(** ** From a native tree and back *)

Lemma Kind_array (o : Object) :
  (0 < length (Array o))%nat -> Kind o = KArray.
Proof.
  intros H. unfold Kind.
  destruct (Nat.ltb_spec 0 (length (Array o))); [reflexivity|lia].
Qed.

Lemma Kind_map (o : Object) :
  Array o = [] -> (0 < length (Map o))%nat -> Kind o = KMap.
Proof.
  intros Ha H. unfold Kind. rewrite Ha. simpl.
  destruct (Nat.ltb_spec 0 (length (Map o))); [reflexivity|lia].
Qed.

Lemma ToRaw_unfold (obj : Object) :
  ToRaw obj =
    match Kind obj with
    | KArray => any_slice (map ToRaw (Array obj))
    | KMap => any_map (range_set ToRaw (Map obj) [])
    | KValue => Value obj
    end.
Proof. destruct obj; reflexivity. Qed.

(** Two maps with the same keys in the same order whose values are
    related are related at every key. *)
Lemma map_get_related (R : Object -> Object -> Prop) (f : Object -> Object)
  (m : gomap Object) (k : string) :
  Forall (fun kv => R (f (snd kv)) (snd kv)) m ->
  option_rel R (map_get k (map (fun kv => (fst kv, f (snd kv))) m))
             (map_get k m).
Proof.
  induction 1 as [|[k0 v0] m H0 Hm IH]; simpl.
  - constructor.
  - destruct (k =? k0); [constructor; exact H0|exact IH].
Qed.

Lemma native_tree_unfold (obj : Object) :
  native_tree obj =
    match Kind obj with
    | KArray => forallb native_tree (Array obj)
    | KMap =>
        uniqueb (keys (Map obj))
        && forallb (fun kv => native_tree (snd kv)) (Map obj)
    | KValue => scalar (Value obj)
    end.
Proof. destruct obj; reflexivity. Qed.

Lemma Kind_Array_length (o : Object) :
  Kind o = KArray -> (0 < length (Array o))%nat.
Proof.
  unfold Kind. destruct (Nat.ltb_spec 0 (length (Array o))); [auto|].
  destruct (0 <? length (Map o))%nat; discriminate.
Qed.

Lemma Kind_Map_length (o : Object) :
  Kind o = KMap -> (0 < length (Map o))%nat.
Proof.
  unfold Kind. destruct (0 <? length (Array o))%nat; [discriminate|].
  destruct (Nat.ltb_spec 0 (length (Map o))); [auto|discriminate].
Qed.

Lemma ObjectFromRaw_scalar (v : any) :
  scalar v = true -> ObjectFromRaw v = mkObject [] [] [] v false.
Proof. destruct v; simpl; intros H; (reflexivity || discriminate). Qed.

(** What [ObjectFromRaw] builds is a native tree. *)
Lemma ObjectFromRaw_native (r : any) : native_tree (ObjectFromRaw r) = true.
Proof.
  induction r as [| b | n | s | l IH | m IH] using any_ind;
    try reflexivity.
  - change (ObjectFromRaw (any_slice l))
      with (mkObject [] (map ObjectFromRaw l) [] any_nil false).
    rewrite native_tree_unfold.
    destruct (Kind_cases (mkObject [] (map ObjectFromRaw l) [] any_nil false))
      as [-> | [H | ->]]; [| |reflexivity].
    + simpl. apply forallb_forall. intros x Hx.
      apply in_map_iff in Hx. destruct Hx as [y [<- Hy]].
      rewrite Forall_forall in IH. auto.
    + apply Kind_Map_length in H. simpl in H. lia.
  - change (ObjectFromRaw (any_map m))
      with (mkObject [] [] (range_set ObjectFromRaw m []) any_nil false).
    rewrite native_tree_unfold.
    destruct (Kind_cases (mkObject [] [] (range_set ObjectFromRaw m [])
                            any_nil false))
      as [H | [-> | ->]]; [| |reflexivity].
    + apply Kind_Array_length in H. simpl in H. lia.
    + simpl. apply andb_true_iff. split.
      * apply uniqueb_NoDup, range_set_NoDup. constructor.
      * apply forallb_forall. apply Forall_forall.
        apply (range_set_Forall ObjectFromRaw
                 (fun o => native_tree o = true)); [exact IH|constructor].
Qed.

(** C8.  For every tree [t] made of native structures (nested maps,
    arrays and scalar leaves, the empty map and the empty array among
    them), whatever its Origins and secret flags,
    [ObjectFromRaw(t.ToRaw())] equals [t] up to Origins and the secret
    flag: the same kind at every node, the same map keys, the same array
    order, the same leaf values.  Every tree that [ObjectFromRaw] builds
    is such a tree. *)
Theorem ObjectFromRaw_ToRaw (t : Object) :
  native_tree t = true ->
  struct_eq (ObjectFromRaw (ToRaw t)) t
  /\ (forall r, native_tree (ObjectFromRaw r) = true).
Proof.
  intros Hn. split; [|exact ObjectFromRaw_native].
  revert Hn.
  induction t as [og a m v sc IHa IHm] using Object_ind.
  set (o := mkObject og a m v sc).
  rewrite (native_tree_unfold o), (ToRaw_unfold o).
  destruct (Kind o) eqn:Hk; intros Hn.
  - (* an array *)
    apply Kind_Array_length in Hk as Hlen. simpl in Hlen, Hn.
    change (ObjectFromRaw (any_slice ?l))
      with (mkObject [] (map ObjectFromRaw l) [] any_nil false).
    apply struct_eq_Array; [|exact Hk|].
    + apply Kind_array. simpl. rewrite !length_map. exact Hlen.
    + simpl. rewrite map_map. clear Hk Hlen o.
      induction IHa as [|x xs Hx _ IHxs]; simpl in *.
      * constructor.
      * apply andb_true_iff in Hn. destruct Hn as [Hn1 Hn2].
        constructor; [exact (Hx Hn1)|exact (IHxs Hn2)].
  - (* a map *)
    apply Kind_Map_length in Hk as Hlen. simpl in Hlen, Hn.
    apply andb_true_iff in Hn. destruct Hn as [Hu Hn].
    apply uniqueb_NoDup in Hu.
    simpl Map.
    rewrite (range_set_unique ToRaw m []) by exact Hu.
    simpl app.
    change (ObjectFromRaw (any_map ?l))
      with (mkObject [] [] (range_set ObjectFromRaw l []) any_nil false).
    rewrite (range_set_unique ObjectFromRaw _ [])
      by (simpl; unfold keys; rewrite map_map; exact Hu).
    simpl app. rewrite map_map. simpl.
    apply struct_eq_Map; [|exact Hk|].
    + apply Kind_map; [reflexivity|]. simpl. rewrite length_map. exact Hlen.
    + intros k. simpl.
      apply (map_get_related struct_eq (fun o => ObjectFromRaw (ToRaw o)) m k).
      rewrite forallb_forall in Hn.
      rewrite Forall_forall in IHm |- *. intros kv Hkv. auto.
  - (* a leaf *)
    simpl Value in *. rewrite (ObjectFromRaw_scalar v Hn).
    apply struct_eq_Value; [reflexivity|exact Hk|reflexivity].
Qed.

(** * The statements at concrete trees

    The parser is [getCmd]; [leaf], [node] and [arr] build the trees. *)

(** The scenario of the spec: [{"a": {"b": 1}}] merged into the empty
    map, then [{"a((replace))": {"c": 2}}] merged into the result, yields
    [{"a": {"c": 2}}]. *)
Example Merge_replace_scenario :
  fst (Merge getCmd (node []) (node [("a", node [("b", leaf 1)])]))
    = (node [("a", node [("b", leaf 1)])], None)
  /\ fst (Merge getCmd (node [("a", node [("b", leaf 1)])])
                       (node [("a((replace))", node [("c", leaf 2)])]))
     = (node [("a", node [("c", leaf 2)])], None).
Proof. split; reflexivity. Qed.

(** [Merge(Array[a,b], Array[c,d])] yields [Array[a,b,c,d]]; under a key
    that carries prepend, [Array[c,d,a,b]]. *)
Example Merge_append_order :
  fst (Merge getCmd (arr [leaf 1; leaf 2]) (arr [leaf 3; leaf 4]))
    = (arr [leaf 1; leaf 2; leaf 3; leaf 4], None)
  /\ fst (Merge getCmd (node [("k", arr [leaf 1; leaf 2])])
                       (node [("k((prepend))", arr [leaf 3; leaf 4])]))
     = (node [("k", arr [leaf 3; leaf 4; leaf 1; leaf 2])], None).
Proof. split; reflexivity. Qed.

(** C1 as stated fails: merging the empty tree into a leaf returns the
    empty tree, and merging it into a secret map returns a map that is no
    longer secret. *)
Lemma Merge_empty_incoming_not_identity :
  fst (Merge getCmd (leaf 1) zeroObject) <> (leaf 1, None)
  /\ fst (Merge getCmd (with_secret (node [("a", leaf 1)]) true) zeroObject)
     <> (with_secret (node [("a", leaf 1)]) true, None).
Proof. split; vm_compute; discriminate. Qed.

(** C2 as stated fails: with no directive on the key, a Map in [base]
    against an Array in [incoming] merges without an error, and the key
    takes the Array. *)
Lemma splice_Map_against_Array_no_directive :
  getCmd "a" = (command.mk "" false "a", None)
  /\ Merge getCmd (node [("a", node [("x", leaf 1)])])
                  (node [("a", arr [leaf 2])])
     = ((node [("a", arr [leaf 2])], None), [("a", arr [leaf 2])]).
Proof. split; reflexivity. Qed.

(** C2 at a key that carries keep: the Map of [base] stays and the loop
    goes on. *)
Lemma splice_Map_against_Array_witness :
  splice_range getCmd (merge getCmd)
    [("a((keep))", arr [leaf 2]); ("b", leaf 3)]
    [("a", node [("x", leaf 1)])]
  = splice_range getCmd (merge getCmd) [("b", leaf 3)]
      [("a", node [("x", leaf 1)])].
Proof.
  apply (proj1 (proj2 (splice_Map_against_Array getCmd
           "a((keep))" (arr [leaf 2]) (node [("x", leaf 1)])
           (command.mk cmdKeep false "a") [("b", leaf 3)]
           [("a", node [("x", leaf 1)])]
           eq_refl eq_refl eq_refl eq_refl)));
    reflexivity.
Defined.

(** C3 as stated fails: splice on a key whose incoming value is a Map,
    against a leaf in [base], replaces the leaf; append on a key whose
    incoming value is an Array, against a Map in [base], leaves [base] as
    it is.  Neither returns an error. *)
Lemma splice_kind_mismatch_accepted :
  fst (Merge getCmd (node [("a", leaf 1)])
                    (node [("a((splice))", node [("x", leaf 2)])]))
    = (node [("a", node [("x", leaf 2)])], None)
  /\ fst (Merge getCmd (node [("a", node [("x", leaf 1)])])
                       (node [("a((append))", arr [leaf 2])]))
     = (node [("a", node [("x", leaf 1)])], None).
Proof. split; reflexivity. Qed.

(** C3 at append on an incoming Map against a leaf of [base]. *)
Lemma splice_kind_mismatch_witness :
  splice_range getCmd (merge getCmd)
    [("a((append))", node [("x", leaf 2)]); ("b", leaf 3)]
    [("a", leaf 1)]
  = (Some ErrInvalidCommand, [("a", leaf 1)]).
Proof.
  apply (proj1 (splice_kind_mismatch getCmd
           "a((append))" (node [("x", leaf 2)]) (leaf 1)
           (command.mk cmdAppend false "a") [("b", leaf 3)] [("a", leaf 1)]
           eq_refl eq_refl ltac:(discriminate)));
    reflexivity.
Defined.

(** C4 as stated fails: the scan returns the error of a key that does not
    parse when it visits that key before the one that carries clear. *)
Lemma Merge_clear_after_bad_key :
  getCmd "b((clear))" = (command.mk cmdClear false "b", None)
  /\ fst (Merge getCmd (node [("a", leaf 1)])
                 (node [("a((bogus))", leaf 2); ("b((clear))", leaf 3)]))
     = (zeroObject, Some ErrInvalidCommand).
Proof. split; reflexivity. Qed.

(** C4 with a key that parses before the one that carries clear. *)
Lemma Merge_clear_witness :
  Merge getCmd (node [("a", leaf 1)])
        (node [("a((keep))", leaf 2); ("b((clear))", leaf 3)])
  = ((zeroObject, None), [("a", leaf 1)]).
Proof.
  apply (Merge_clear getCmd (node [("a", leaf 1)])
           (node [("a((keep))", leaf 2); ("b((clear))", leaf 3)])
           [("a((keep))", leaf 2)] [] "b((clear))" (leaf 3)
           (command.mk cmdClear false "b")); reflexivity.
Defined.

(** C5 with another key visited before the one that carries fail. *)
Lemma Merge_fail_Conflict_witness :
  fst (Merge getCmd (node [("k", leaf 1)])
                    (node [("z", leaf 9); ("k((fail))", leaf 2)]))
  = (zeroObject, Some ErrConflict).
Proof.
  apply (proj1 (proj2 (Merge_fail_Conflict getCmd (node [("k", leaf 1)])
           (node [("z", leaf 9); ("k((fail))", leaf 2)])
           [("z", leaf 9)] [] "k((fail))" (leaf 2) (leaf 1)
           (command.mk cmdFail false "k") [("k", leaf 1); ("z", leaf 9)]
           eq_refl eq_refl eq_refl eq_refl eq_refl eq_refl eq_refl eq_refl
           eq_refl))).
Defined.

(** C6 as stated fails: the elements of the incoming array have their
    commands resolved before they are added, so the result does not hold
    them as they came in; and when one of them does not resolve, there is
    no result at all. *)
Lemma merge_Array_elements_resolved :
  fst (Merge getCmd (node [("a", arr [leaf 1])])
                    (node [("a", arr [node [("x((secret))", leaf 3)]])]))
    = (node [("a", arr [leaf 1; node [("x", with_secret (leaf 3) true)]])],
       None)
  /\ [leaf 1; node [("x", with_secret (leaf 3) true)]]
     <> [leaf 1] ++ [node [("x((secret))", leaf 3)]]
  /\ fst (Merge getCmd (node [("a", arr [leaf 1])])
                       (node [("a", arr [node [("x((bogus))", leaf 3)]])]))
     = (zeroObject, Some ErrInvalidCommand).
Proof. repeat split; try reflexivity. discriminate. Qed.

(** C6 with prepend and an incoming element that holds a secret key. *)
Lemma merge_Array_order_witness :
  exists rv,
    fst (merge getCmd (with_Origins (arr [leaf 1; leaf 2]) [origin1])
               (command.mk cmdPrepend false "a")
               (with_Origins (arr [leaf 3; node [("x((secret))", leaf 4)]])
                             [origin2]))
      = (rv, None)
    /\ Array rv = [leaf 3; node [("x", with_secret (leaf 4) true)]]
                    ++ [leaf 1; leaf 2]
    /\ Origins rv = [origin2] ++ [origin1].
Proof.
  apply (proj1 (proj2 (merge_Array_order getCmd
           (with_Origins (arr [leaf 1; leaf 2]) [origin1])
           (with_Origins (arr [leaf 3; node [("x((secret))", leaf 4)]])
                         [origin2])
           (command.mk cmdPrepend false "a")
           [leaf 3; node [("x", with_secret (leaf 4) true)]]
           eq_refl eq_refl eq_refl)));
    reflexivity.
Defined.

(** C7 as stated fails: after the call the map of [base] holds the key
    that [incoming] brought. *)
Lemma Merge_writes_into_base :
  snd (Merge getCmd (node [("a", leaf 1)]) (node [("b", leaf 2)]))
    = [("a", leaf 1); ("b", leaf 2)]
  /\ snd (Merge getCmd (node [("a", leaf 1)]) (node [("b", leaf 2)]))
     <> Map (node [("a", leaf 1)]).
Proof. split; [reflexivity|vm_compute; discriminate]. Qed.

(** C7 on an Array receiver and on a Map receiver. *)
Lemma Merge_receiver_map_witness :
  snd (Merge getCmd (arr [leaf 1]) (arr [leaf 2])) = Map (arr [leaf 1])
  /\ Map (node [("a", leaf 1); ("b", leaf 2)])
     = snd (Merge getCmd (node [("a", leaf 1)]) (node [("b", leaf 2)])).
Proof.
  split.
  - apply (proj1 (Merge_receiver_map getCmd (arr [leaf 1]) (arr [leaf 2]))).
    discriminate.
  - apply (proj2 (proj2 (Merge_receiver_map getCmd (node [("a", leaf 1)])
                           (node [("b", leaf 2)])) eq_refl eq_refl)).
    reflexivity.
Defined.

(** C8 on a tree with Origins, a secret leaf, an empty array and an
    empty map. *)
Lemma ObjectFromRaw_ToRaw_witness :
  struct_eq
    (ObjectFromRaw
       (ToRaw (mkObject [origin1] []
                 [("a", with_secret (leaf 1) true); ("b", arr []);
                  ("c", with_Origins (arr [leaf 2; node []]) [origin2])]
                 any_nil true)))
    (mkObject [origin1] []
       [("a", with_secret (leaf 1) true); ("b", arr []);
        ("c", with_Origins (arr [leaf 2; node []]) [origin2])]
       any_nil true).
Proof.
  apply (proj1 (ObjectFromRaw_ToRaw
           (mkObject [origin1] []
              [("a", with_secret (leaf 1) true); ("b", arr []);
               ("c", with_Origins (arr [leaf 2; node []]) [origin2])]
              any_nil true) eq_refl)).
Defined.

(** C9 as stated fails: on a tree with a map, a nil transform is called
    on the first key, which panics. *)
Lemma AlterKeyCase_nil_panics :
  AlterKeyCase (node [("a", leaf 1)]) None = None.
Proof. reflexivity. Qed.

(** C9 with nil on nested arrays and with the identity on a map. *)
Lemma AlterKeyCase_noop_witness :
  AlterKeyCase (arr [leaf 1; arr [leaf 2]]) None
    = Some (arr [leaf 1; arr [leaf 2]])
  /\ AlterKeyCase (node [("a", leaf 1); ("b", arr [node [("c", leaf 2)]])])
                  (Some (fun key => key))
     = Some (node [("a", leaf 1); ("b", arr [node [("c", leaf 2)]])]).
Proof.
  split.
  - apply (proj1 (AlterKeyCase_noop (arr [leaf 1; arr [leaf 2]]))).
    reflexivity.
  - apply (proj2 (AlterKeyCase_noop
                    (node [("a", leaf 1); ("b", arr [node [("c", leaf 2)]])]))).
    reflexivity.
Defined.

(** C10 as stated fails: a key that does not parse carries no clear
    directive, and [Merge] returns its error. *)
Lemma Merge_into_Value_bad_key :
  Kind zeroObject = KValue
  /\ clear_free getCmd [("a((bogus))", leaf 1)] = true
  /\ fst (Merge getCmd zeroObject (node [("a((bogus))", leaf 1)]))
     = (zeroObject, Some ErrInvalidCommand).
Proof. repeat split; reflexivity. Qed.

(** C10 on an empty map as [base] and a secret [incoming] with a
    directive key. *)
Lemma Merge_into_Value_witness :
  Kind (node []) = KValue
  /\ no_clear getCmd [("a((replace))", leaf 1)] = true
  /\ Merge getCmd (node []) (with_secret (node [("a((replace))", leaf 1)]) true)
     = ((node [("a((replace))", leaf 1)], None), []).
Proof.
  split; [reflexivity|]. split; [reflexivity|].
  apply (Merge_into_Value getCmd (node [])
           (with_secret (node [("a((replace))", leaf 1)]) true));
    reflexivity.
Defined.

(** * Further properties *)

(** ** Fetch *)

Section FetchFacts.
Variable Atoi_ : string -> option Z.

Lemma getPath_suffix (pre rest : list string) (ask sep : string) :
  getPath rest (pre ++ ask :: rest) sep
  = Some (String.concat sep (pre ++ [ask])).
Proof.
  unfold getPath. rewrite length_app. simpl.
  destruct (Nat.leb_spec (length rest) (length pre + S (length rest)));
    [|lia].
  replace (length pre + S (length rest) - length rest)%nat
    with (length (pre ++ [ask])) by (rewrite length_app; simpl; lia).
  replace (pre ++ ask :: rest) with ((pre ++ [ask]) ++ rest)
    by (rewrite <- app_assoc; reflexivity).
  rewrite firstn_app, firstn_all, Nat.sub_diag. simpl.
  rewrite app_nil_r. reflexivity.
Qed.

(** What [fetch] returns when [asks] is the end of [path]: never a
    panic; next to an error the zero Object, and in the error the segments
    of [path] up to the one that failed. *)
Lemma fetch_suffix (sep : string) (asks : list string) :
  forall (obj : Object) (pre : list string),
  exists r e,
    fetch Atoi_ obj asks (pre ++ asks) sep = Some (r, e)
    /\ match e with
       | None => True
       | Some (NumError s) => r = zeroObject /\ In s asks
       | Some (Errorf text w) =>
           r = zeroObject
           /\ exists done ask rest,
               asks = done ++ ask :: rest
               /\ let p := String.concat sep (pre ++ done ++ [ask]) in
                  (w = ErrNotFound /\ text = ("with '" ++ p ++ "' ")%string)
                  \/ (w = ErrArrayOutOfBounds
                      /\ exists n : nat,
                          text = ("with array len of " ++ Itoa (Z.of_nat n)
                                  ++ " and '" ++ p ++ "' ")%string)
       end.
Proof.
  induction asks as [|ask rest IH]; intros obj pre.
  - exists obj, None. simpl. split; [reflexivity|exact I].
  - assert (forall next,
              exists r e,
                fetch Atoi_ next rest (pre ++ ask :: rest) sep = Some (r, e)
                /\ match e with
                   | None => True
                   | Some (NumError s) => r = zeroObject /\ In s (ask :: rest)
                   | Some (Errorf text w) =>
                       r = zeroObject
                       /\ exists done ask0 rest0,
                           ask :: rest = done ++ ask0 :: rest0
                           /\ let p := String.concat sep
                                         (pre ++ done ++ [ask0]) in
                              (w = ErrNotFound
                               /\ text = ("with '" ++ p ++ "' ")%string)
                              \/ (w = ErrArrayOutOfBounds
                                  /\ exists n : nat,
                                      text = ("with array len of "
                                              ++ Itoa (Z.of_nat n)
                                              ++ " and '" ++ p ++ "' ")%string)
                   end) as Hrec.
    { intros next. destruct (IH next (pre ++ [ask])) as [r [e [Hf He]]].
      rewrite <- app_assoc in Hf. simpl in Hf.
      exists r, e. split; [exact Hf|].
      destruct e as [[s|text w]|]; [| |exact I].
      - destruct He as [Hr Hin]. split; [exact Hr|right; exact Hin].
      - destruct He as [Hr [done [ask0 [rest0 [Heq Hp]]]]].
        split; [exact Hr|].
        exists (ask :: done), ask0, rest0. split; [simpl; congruence|].
        rewrite <- app_assoc in Hp. simpl in Hp. exact Hp. }
    assert (exists r e,
              Some (zeroObject,
                    Some (Errorf ("with '"
                                  ++ String.concat sep (pre ++ [ask])
                                  ++ "' ")%string ErrNotFound)) = Some (r, e)
              /\ match e with
                 | None => True
                 | Some (NumError s) => r = zeroObject /\ In s (ask :: rest)
                 | Some (Errorf text w) =>
                     r = zeroObject
                     /\ exists done ask0 rest0,
                         ask :: rest = done ++ ask0 :: rest0
                         /\ let p := String.concat sep
                                       (pre ++ done ++ [ask0]) in
                            (w = ErrNotFound
                             /\ text = ("with '" ++ p ++ "' ")%string)
                            \/ (w = ErrArrayOutOfBounds
                                /\ exists n : nat,
                                    text = ("with array len of "
                                            ++ Itoa (Z.of_nat n)
                                            ++ " and '" ++ p ++ "' ")%string)
                 end) as Hnf.
    { eexists _, _. split; [reflexivity|]. split; [reflexivity|].
      exists [], ask, rest. split; [reflexivity|]. left. split; reflexivity. }
    simpl fetch. rewrite getPath_suffix.
    destruct (Kind obj).
    + destruct (Atoi_ ask) as [idx|].
      * destruct ((0 <=? idx)%Z && (idx <? Z.of_nat (length (Array obj)))%Z).
        -- apply Hrec.
        -- eexists _, _. split; [reflexivity|]. split; [reflexivity|].
           exists [], ask, rest. split; [reflexivity|]. right.
           split; [reflexivity|]. exists (length (Array obj)). reflexivity.
      * eexists _, _. split; [reflexivity|]. split; [reflexivity|].
        left. reflexivity.
    + destruct (map_get ask (Map obj)) as [next|]; [apply Hrec|exact Hnf].
    + exact Hnf.
Qed.

(** A successful [fetch] does not look at [path]. *)
Lemma fetch_success_path (sep sep' : string) (asks : list string) :
  forall (obj r : Object) (path path' : list string),
    fetch Atoi_ obj asks path sep = Some (r, None) ->
    fetch Atoi_ obj asks path' sep' = Some (r, None).
Proof.
  induction asks as [|ask rest IH]; intros obj r path path'; simpl.
  - auto.
  - destruct (Kind obj).
    + destruct (Atoi_ ask) as [idx|]; [|discriminate].
      destruct ((0 <=? idx)%Z && (idx <? Z.of_nat (length (Array obj)))%Z).
      * apply IH.
      * destruct (getPath rest path sep); discriminate.
    + destruct (map_get ask (Map obj)) as [next|]; [apply IH|].
      destruct (getPath rest path sep); discriminate.
    + destruct (getPath rest path sep); discriminate.
Qed.

Lemma fetch_app (sep : string) (a b : list string) :
  forall (obj mid : Object) (path path' : list string),
    fetch Atoi_ obj a path' sep = Some (mid, None) ->
    fetch Atoi_ obj (a ++ b) path sep = fetch Atoi_ mid b path sep.
Proof.
  induction a as [|ask rest IH]; intros obj mid path path'; simpl.
  - intros H. inversion H. reflexivity.
  - destruct (Kind obj).
    + destruct (Atoi_ ask) as [idx|]; [|discriminate].
      destruct ((0 <=? idx)%Z && (idx <? Z.of_nat (length (Array obj)))%Z).
      * apply IH.
      * destruct (getPath rest path' sep); discriminate.
    + destruct (map_get ask (Map obj)) as [next|]; [apply IH|].
      destruct (getPath rest path' sep); discriminate.
    + destruct (getPath rest path' sep); discriminate.
Qed.

(** X1.  [Fetch] never panics: the slice [path[:len(path)-len(asks)]] of
    [getPath] stays in range, since [asks] is always the end of [path].
    The empty path returns the node itself. *)
Theorem Fetch_no_panic (obj : Object) (asks : list string) (sep : string) :
  Fetch Atoi_ obj asks sep <> None
  /\ Fetch Atoi_ obj [] sep = Some (obj, None).
Proof.
  split; [|reflexivity].
  destruct (fetch_suffix sep asks obj []) as [r [e [H _]]].
  unfold Fetch. simpl in H. rewrite H. discriminate.
Qed.


(** X3.  Fetching [a ++ b] is fetching [b] below the node that [a] leads
    to, with errors reported against the whole path. *)
Theorem Fetch_app (obj mid : Object) (a b : list string) (sep : string) :
  Fetch Atoi_ obj a sep = Some (mid, None) ->
  Fetch Atoi_ obj (a ++ b) sep = fetch Atoi_ mid b (a ++ b) sep
  /\ (forall r, Fetch Atoi_ mid b sep = Some (r, None) ->
                Fetch Atoi_ obj (a ++ b) sep = Some (r, None)).
Proof.
  intros H. unfold Fetch in *.
  rewrite (fetch_app sep a b obj mid (a ++ b) a H). split; [reflexivity|].
  intros r Hr. exact (fetch_success_path sep sep b mid r b (a ++ b) Hr).
Qed.
End FetchFacts.

Lemma map_get_map {A B : Type} (f : A -> B) (k : string) (m : gomap A) :
  map_get k (map (fun kv => (fst kv, f (snd kv))) m)
  = option_map f (map_get k m).
Proof.
  induction m as [|[k0 v0] m IH]; simpl; [reflexivity|].
  destruct (k =? k0); [reflexivity|exact IH].
Qed.

(** X4.  What [ObjectFromRaw] builds, [Fetch] finds: under a key of a
    native map the tree built from its value, at an index of a native
    slice the tree built from its element; a key that the map does not
    hold is reported as not found. *)
Theorem Fetch_ObjectFromRaw (parseInt : string -> option Z) (sep : string) :
  (forall m k v,
      uniqueb (keys m) = true -> map_get k m = Some v ->
      Fetch parseInt (ObjectFromRaw (any_map m)) [k] sep
      = Some (ObjectFromRaw v, None))
  /\ (forall m k,
        uniqueb (keys m) = true -> map_get k m = None ->
        Fetch parseInt (ObjectFromRaw (any_map m)) [k] sep
        = Some (zeroObject,
                Some (Errorf ("with '" ++ k ++ "' ")%string ErrNotFound)))
  /\ (forall l s idx,
        parseInt s = Some idx ->
        (0 <= idx < Z.of_nat (length l))%Z ->
        Fetch parseInt (ObjectFromRaw (any_slice l)) [s] sep
        = Some (ObjectFromRaw (nth (Z.to_nat idx) l any_nil), None)).
Proof.
  assert (forall m, uniqueb (keys m) = true ->
            ObjectFromRaw (any_map m)
            = mkObject [] []
                (map (fun kv => (fst kv, ObjectFromRaw (snd kv))) m)
                any_nil false) as Hmap.
  { intros m Hu. apply uniqueb_NoDup in Hu.
    change (ObjectFromRaw (any_map m))
      with (mkObject [] [] (range_set ObjectFromRaw m []) any_nil false).
    rewrite (range_set_unique ObjectFromRaw m []) by exact Hu.
    reflexivity. }
  split; [|split].
  - intros m k v Hu Hg. rewrite (Hmap m Hu). unfold Fetch. simpl fetch.
    rewrite Kind_map; [| reflexivity |].
    + simpl Map. rewrite map_get_map, Hg. reflexivity.
    + simpl. rewrite length_map. destruct m; [discriminate|simpl; lia].
  - intros m k Hu Hg. rewrite (Hmap m Hu). unfold Fetch. simpl fetch.
    unfold getPath. simpl.
    destruct (Kind_cases (mkObject [] []
                (map (fun kv => (fst kv, ObjectFromRaw (snd kv))) m)
                any_nil false)) as [H | [-> | ->]].
    + apply Kind_Array_length in H. simpl in H. lia.
    + simpl Map. rewrite map_get_map, Hg. reflexivity.
    + reflexivity.
  - intros l s idx Hs Hi.
    change (ObjectFromRaw (any_slice l))
      with (mkObject [] (map ObjectFromRaw l) [] any_nil false).
    unfold Fetch. simpl fetch.
    rewrite Kind_array by (simpl; rewrite length_map; lia).
    rewrite Hs. simpl Array. rewrite length_map.
    destruct (Z.leb_spec 0 idx); [|lia].
    destruct (Z.ltb_spec idx (Z.of_nat (length l))); [|lia]. simpl.
    change zeroObject with (ObjectFromRaw any_nil).
    rewrite map_nth. reflexivity.
Qed.

(** ** Redaction *)

Lemma ToRedacted_unfold (obj : Object) :
  ToRedacted obj =
    if secret obj then mkObject [] [] [] (any_string redactedText) true
    else
      match Kind obj with
      | KArray => with_Array obj (map ToRedacted (Array obj))
      | KMap => with_Map obj (range_set ToRedacted (Map obj) [])
      | KValue => obj
      end.
Proof. destruct obj; reflexivity. Qed.

Lemma range_set_nonempty {A B : Type} (f : A -> B) (l : gomap A) :
  (0 < length l)%nat -> (0 < length (range_set f l []))%nat.
Proof.
  assert (forall (k : string) (v : B) (m : gomap B),
             (0 < length (map_set k v m))%nat) as Hset.
  { intros k v [|[k0 v0] m]; simpl; [lia|]. destruct (k =? k0); simpl; lia. }
  assert (forall (l : gomap A) (m : gomap B),
             (0 < length m)%nat -> (0 < length (range_set f l m))%nat) as Hgo.
  { unfold range_set. clear l. induction l as [|[k v] l IH]; simpl; intros m H.
    - exact H.
    - apply IH, Hset. }
  destruct l as [|[k v] l]; simpl; intros H; [lia|].
  apply (Hgo l). simpl. lia.
Qed.

(** X5.  In [ToRedacted(t)] every secret node that a walk by [Kind]
    reaches is the leaf that holds the text [REDACTED], with no Origins
    and no children. *)
Theorem ToRedacted_Redacted (t : Object) : Redacted (ToRedacted t).
Proof.
  induction t as [og a m v sc IHa IHm] using Object_ind.
  set (o := mkObject og a m v sc).
  rewrite (ToRedacted_unfold o).
  destruct (secret o) eqn:Hs; [constructor|].
  destruct (Kind o) eqn:Hk.
  - apply Redacted_Array; [exact Hs| |].
    + apply Kind_array. simpl. rewrite length_map.
      exact (Kind_Array_length o Hk).
    + simpl. apply Forall_forall. intros x Hx.
      apply in_map_iff in Hx. destruct Hx as [y [<- Hy]].
      rewrite Forall_forall in IHa. auto.
  - apply Redacted_Map; [exact Hs| |].
    + apply Kind_map.
      * simpl. apply Kind_Map_length in Hk as Hl. unfold Kind in Hk.
        destruct a; [reflexivity|discriminate].
      * simpl. apply range_set_nonempty. exact (Kind_Map_length o Hk).
    + simpl. apply (range_set_Forall ToRedacted Redacted); [exact IHm|].
      constructor.
  - apply Redacted_Value; assumption.
Qed.

(** X6.  Redacting twice is redacting once. *)
Theorem ToRedacted_idempotent (t : Object) :
  ToRedacted (ToRedacted t) = ToRedacted t.
Proof.
  induction t as [og a m v sc IHa IHm] using Object_ind.
  set (o := mkObject og a m v sc).
  rewrite (ToRedacted_unfold o).
  destruct (secret o) eqn:Hs; [reflexivity|].
  destruct (Kind o) eqn:Hk.
  - rewrite ToRedacted_unfold. simpl secret. unfold o at 1. simpl.
    subst o. simpl in Hs. rewrite Hs.
    rewrite Kind_array
      by (simpl; rewrite length_map;
          exact (Kind_Array_length _ Hk)).
    simpl. unfold with_Array. simpl. f_equal.
    rewrite map_map. apply map_ext_in. intros x Hx.
    rewrite Forall_forall in IHa. auto.
  - assert (a = []) as Ha.
    { unfold Kind in Hk. simpl in Hk. destruct a; [reflexivity|discriminate]. }
    set (M := range_set ToRedacted m []).
    assert (NoDup (keys M)) as Hnd by (apply range_set_NoDup; constructor).
    assert (Forall (fun kv => ToRedacted (snd kv) = snd kv) M) as Hfix.
    { apply (range_set_Forall ToRedacted (fun x => ToRedacted x = x));
        [exact IHm|constructor]. }
    rewrite ToRedacted_unfold. simpl secret. subst o. simpl in Hs.
    rewrite Hs.
    rewrite Kind_map.
    + unfold with_Map. simpl. f_equal. fold M.
      rewrite (range_set_unique ToRedacted M []) by exact Hnd. simpl.
      clear - Hfix. induction Hfix as [|[k x] l Hx _ IH]; simpl.
      * reflexivity.
      * simpl in Hx. rewrite Hx, IH. reflexivity.
    + simpl. exact Ha.
    + simpl. apply range_set_nonempty. exact (Kind_Map_length _ Hk).
  - rewrite ToRedacted_unfold, Hs, Hk. reflexivity.
Qed.

Lemma secret_free_unfold (obj : Object) :
  secret_free obj =
    negb (secret obj)
    && match Kind obj with
       | KArray => forallb secret_free (Array obj)
       | KMap => forallb (fun kv => secret_free (snd kv)) (Map obj)
       | KValue => true
       end.
Proof. destruct obj; reflexivity. Qed.

Lemma map_id_on {A : Type} (f : A -> A) (l : list A) :
  Forall (fun x => f x = x) l -> map f l = l.
Proof. induction 1 as [|x l Hx _ IH]; simpl; congruence. Qed.

Lemma map_snd_id_on {A : Type} (f : A -> A) (l : gomap A) :
  Forall (fun kv => f (snd kv) = snd kv) l ->
  map (fun kv => (fst kv, f (snd kv))) l = l.
Proof.
  induction 1 as [|[k x] l Hx _ IH]; simpl; [reflexivity|].
  simpl in Hx. rewrite Hx, IH. reflexivity.
Qed.

(** X7.  A tree in which the walk reaches no secret node, and whose maps
    hold each key once, is its own redaction. *)
Theorem ToRedacted_secret_free (t : Object) :
  secret_free t = true -> well_keyed t = true -> ToRedacted t = t.
Proof.
  induction t as [og a m v sc IHa IHm] using Object_ind.
  set (o := mkObject og a m v sc).
  rewrite (secret_free_unfold o), (well_keyed_unfold o), (ToRedacted_unfold o).
  intros Hs Hw. apply andb_true_iff in Hs. destruct Hs as [Hs Hc].
  apply negb_true_iff in Hs. rewrite Hs.
  destruct (Kind o) eqn:Hk; [| |reflexivity].
  - simpl in Hc, Hw |- *. unfold with_Array, o. simpl. f_equal.
    apply map_id_on. rewrite forallb_forall in Hc, Hw.
    rewrite Forall_forall in IHa |- *. intros x Hx. auto.
  - simpl in Hc, Hw |- *. apply andb_true_iff in Hw. destruct Hw as [Hu Hw].
    unfold with_Map, o. simpl. f_equal.
    rewrite (range_set_unique ToRedacted m [])
      by (apply uniqueb_NoDup; exact Hu).
    simpl. apply map_snd_id_on. rewrite forallb_forall in Hc, Hw.
    rewrite Forall_forall in IHm |- *. intros kv Hkv. auto.
Qed.

(** ** Resolving commands *)

Section ResolveFacts.
Variable parse : string -> command.t * option error.

Lemma each_length {A B : Type} (f : A -> B * option error) (l : list A) :
  forall l', each f l = (l', None) -> length l' = length l.
Proof.
  induction l as [|x l IH]; simpl; intros l' H.
  - inversion H. reflexivity.
  - destruct (f x) as [v [e|]]; [discriminate|].
    destruct (each f l) as [vs [e|]]; [discriminate|].
    inversion H. simpl. rewrite (IH vs eq_refl). reflexivity.
Qed.

Lemma map_set_length {A : Type} (k : string) (v : A) (m : gomap A) :
  (length m <= length (map_set k v m))%nat
  /\ (0 < length (map_set k v m))%nat.
Proof.
  induction m as [|[k0 v0] m IH]; simpl; [lia|].
  destruct (k =? k0); simpl; lia.
Qed.

Lemma getValidCmd_inv (key : string) (val : Object) (c : command.t) :
  getValidCmd parse key val = (c, None) ->
  parse key = (c, None)
  /\ In (command.cmd c) (valid_cmds (Kind val))
  /\ command.cmd c <> cmdClear.
Proof.
  unfold getValidCmd. destruct (parse key) as [c' [e|]]; [discriminate|].
  destruct (existsb (String.eqb (command.cmd c')) (valid_cmds (Kind val)))
    eqn:E; [|discriminate].
  intros H. inversion H; subst c'. split; [reflexivity|].
  apply existsb_exists in E. destruct E as [x [Hin Hx]].
  apply String.eqb_eq in Hx. subst x. split; [exact Hin|].
  intros Hc. rewrite Hc in Hin.
  destruct (Kind val); simpl in Hin;
    repeat (destruct Hin as [Hin|Hin]; [discriminate|]); exact Hin.
Qed.

Lemma resolveCommands_Map (o : Object) (s : bool) :
  Kind o = KMap ->
  resolveCommands parse o s =
    match resolve_range parse (resolveCommands parse) (Map o) [] with
    | (_, Some e) => (zeroObject, Some e)
    | (m, None) => (with_Map (if s then with_secret o true else o) m, None)
    end.
Proof.
  intros H. destruct o as [og a m v sc]. simpl. rewrite H. reflexivity.
Qed.

Lemma resolveCommands_Value (o : Object) (s : bool) :
  Kind o = KValue ->
  resolveCommands parse o s = (if s then with_secret o true else o, None).
Proof.
  intros H. destruct o as [og a m v sc]. simpl. rewrite H. reflexivity.
Qed.

Lemma resolveCommands_Array_eq (o : Object) (s : bool) :
  Kind o = KArray ->
  resolveCommands parse o s =
    match each (fun val => resolveCommands parse val false) (Array o) with
    | (_, Some e) => (zeroObject, Some e)
    | (array, None) =>
        (with_Array (if s then with_secret o true else o) array, None)
    end.
Proof.
  intros H. destruct o as [og a m v sc]. simpl. rewrite H. reflexivity.
Qed.

Section RangeFacts.
Variable R : Object -> bool -> result.

Lemma resolve_range_length (l : gomap Object) :
  forall m0 m,
    resolve_range parse R l m0 = (m, None) ->
    (length m0 <= length m)%nat
    /\ ((0 < length l)%nat -> (0 < length m)%nat).
Proof.
  induction l as [|[key val] l IH]; simpl; intros m0 m H.
  - inversion H. split; [lia|intros; lia].
  - destruct (getValidCmd parse key val) as [c [e|]]; [discriminate|].
    destruct (R val (command.secret c)) as [tmp [e|]]; [discriminate|].
    destruct (IH _ _ H) as [Hle _].
    pose proof (map_set_length (command.final c) tmp m0) as [H1 H2].
    split; [lia|intros; lia].
Qed.

(** The keys that a successful range has read carried directives that
    are valid for their values, and their final keys are in the map that
    it built. *)
Lemma resolve_range_valid (l : gomap Object) :
  forall m0 m,
    resolve_range parse R l m0 = (m, None) ->
    (forall k, map_get k m0 <> None -> map_get k m <> None)
    /\ Forall (fun kv =>
                 exists c, parse (fst kv) = (c, None)
                           /\ In (command.cmd c) (valid_cmds (Kind (snd kv)))
                           /\ command.cmd c <> cmdClear
                           /\ map_get (command.final c) m <> None) l.
Proof.
  induction l as [|[key val] l IH]; simpl; intros m0 m H.
  - inversion H. split; [auto|constructor].
  - destruct (getValidCmd parse key val) as [c [e|]] eqn:Ec; [discriminate|].
    destruct (R val (command.secret c)) as [tmp [e|]]; [discriminate|].
    destruct (IH _ _ H) as [Hkeep Hall].
    split.
    + intros k Hk. apply Hkeep, map_set_keeps, Hk.
    + constructor; [|exact Hall].
      destruct (getValidCmd_inv key val c Ec) as [Hp [Hin Hnc]].
      exists c. simpl. repeat split; try assumption.
      apply Hkeep. rewrite map_get_set, String.eqb_refl. discriminate.
Qed.

Lemma plain_key_inv (k : string) :
  plain_key parse k = true -> parse k = (command.mk "" false k, None).
Proof.
  unfold plain_key. destruct (parse k) as [[c sc f] [e|]]; [discriminate|].
  simpl. intros H. apply andb_true_iff in H. destruct H as [H Hf].
  apply andb_true_iff in H. destruct H as [Hc Hs].
  apply String.eqb_eq in Hc, Hf. apply negb_true_iff in Hs. subst.
  reflexivity.
Qed.

Lemma resolve_range_plain (l : gomap Object) :
  Forall (fun kv => plain_key parse (fst kv) = true
                    /\ R (snd kv) false = (snd kv, None)) l ->
  forall m0,
    NoDup (keys m0 ++ keys l) ->
    resolve_range parse R l m0 = (m0 ++ l, None).
Proof.
  induction 1 as [|[k v] l [Hk Hv] _ IH]; simpl; intros m0 Hnd.
  - rewrite app_nil_r. reflexivity.
  - simpl in Hk, Hv. apply plain_key_inv in Hk.
    rewrite (getValidCmd_ok parse k v _ Hk)
      by (simpl; destruct (Kind v); reflexivity).
    simpl. rewrite Hv.
    assert (~ In k (keys m0)) as Hfresh.
    { apply NoDup_remove_2 in Hnd. intros Hin. apply Hnd, in_or_app. left.
      exact Hin. }
    rewrite (map_set_fresh k v m0 Hfresh), IH.
    + rewrite <- app_assoc. reflexivity.
    + rewrite keys_app, <- app_assoc. exact Hnd.
Qed.
End RangeFacts.

Lemma resolveCommands_fields (o : Object) (s : bool) :
  match resolveCommands parse o s with
  | (r, None) =>
      Kind r = Kind o /\ Origins r = Origins o /\ Value r = Value o
      /\ secret r = s || secret o
      /\ length (Array r) = length (Array o)
  | (r, Some _) => r = zeroObject
  end.
Proof.
  assert (forall x : Object,
             Origins (if s then with_secret o true else o) = Origins o
             /\ Value (if s then with_secret o true else o) = Value o
             /\ secret (if s then with_secret o true else o) = s || secret o
             /\ Array (if s then with_secret o true else o) = Array o)
    as Hsame by (intros _; destruct s; simpl; auto).
  destruct (Hsame o) as [Ho [Hv [Hs Ha]]].
  destruct (Kind o) eqn:Hk.
  - rewrite (resolveCommands_Array_eq o s Hk).
    destruct (each (fun val => resolveCommands parse val false) (Array o))
      as [array [e|]] eqn:E; [reflexivity|].
    apply each_length in E. apply Kind_Array_length in Hk as Hl.
    repeat split; simpl; try assumption.
    apply Kind_array. simpl. lia.
  - rewrite (resolveCommands_Map o s Hk).
    destruct (resolve_range parse (resolveCommands parse) (Map o) [])
      as [m [e|]] eqn:E; [reflexivity|].
    apply resolve_range_length in E. destruct E as [_ E].
    apply Kind_Map_length in Hk as Hl.
    repeat split; simpl; try assumption.
    + apply Kind_map; simpl; [|auto].
      rewrite Ha. unfold Kind in Hk.
      destruct (Array o); [reflexivity|discriminate].
    + rewrite Ha. reflexivity.
  - rewrite (resolveCommands_Value o s Hk).
    repeat split; try assumption.
    + destruct s; [|exact Hk]. destruct o; exact Hk.
    + rewrite Ha. reflexivity.
Qed.

(** X8.  When [resolveCommands] succeeds, the tree it returns has the
    kind, the Origins and the value of the tree it was given, as many
    array elements, and is secret when that one was or when the flag
    passed in is set.  When it fails, it returns the zero Object. *)
Theorem resolveCommands_keeps (o : Object) (s : bool) :
  match resolveCommands parse o s with
  | (r, None) =>
      Kind r = Kind o /\ Origins r = Origins o /\ Value r = Value o
      /\ secret r = s || secret o
      /\ length (Array r) = length (Array o)
  | (r, Some _) => r = zeroObject
  end.
Proof. apply resolveCommands_fields. Qed.

Lemma plain_unfold (obj : Object) :
  plain parse obj =
    match Kind obj with
    | KArray => forallb (plain parse) (Array obj)
    | KMap =>
        forallb (fun kv => plain_key parse (fst kv) && plain parse (snd kv))
                (Map obj)
    | KValue => true
    end.
Proof. destruct obj; reflexivity. Qed.

(** X9.  A tree whose keys all parse to themselves, with no directive and
    no secret marker, comes out of [ResolveCommands] as it went in (its
    maps holding each key once). *)
Theorem ResolveCommands_plain (t : Object) :
  plain parse t = true -> well_keyed t = true ->
  ResolveCommands parse t = (t, None).
Proof.
  unfold ResolveCommands.
  induction t as [og a m v sc IHa IHm] using Object_ind.
  set (o := mkObject og a m v sc).
  rewrite (plain_unfold o), (well_keyed_unfold o).
  destruct (Kind o) eqn:Hk; intros Hp Hw.
  - rewrite (resolveCommands_Array_eq o false Hk), each_same.
    + destruct o; reflexivity.
    + simpl in *. rewrite forallb_forall in Hp, Hw.
      rewrite Forall_forall in IHa |- *. intros x Hx. auto.
  - rewrite (resolveCommands_Map o false Hk).
    apply andb_true_iff in Hw. destruct Hw as [Hu Hw]. simpl in Hp, Hu, Hw.
    rewrite (resolve_range_plain (resolveCommands parse) m).
    + reflexivity.
    + rewrite forallb_forall in Hp, Hw.
      rewrite Forall_forall in IHm |- *. intros kv Hkv.
      specialize (Hp kv Hkv). apply andb_true_iff in Hp.
      destruct Hp as [Hp1 Hp2]. split; [exact Hp1|]. auto.
    + simpl. apply uniqueb_NoDup. exact Hu.
  - rewrite (resolveCommands_Value o false Hk). reflexivity.
Qed.

(** X10.  When [resolveCommands] succeeds on a tree of kind Map, every
    direct key parsed to a directive that [getValidCmd] admits for the
    kind of its value, never to clear, and the map returned holds its
    final key. *)
Theorem resolveCommands_valid (o r : Object) (s : bool) :
  Kind o = KMap ->
  resolveCommands parse o s = (r, None) ->
  Forall (fun kv =>
            exists c, parse (fst kv) = (c, None)
                      /\ In (command.cmd c) (valid_cmds (Kind (snd kv)))
                      /\ command.cmd c <> cmdClear
                      /\ map_get (command.final c) (Map r) <> None) (Map o).
Proof.
  intros Hk. rewrite (resolveCommands_Map o s Hk).
  destruct (resolve_range parse (resolveCommands parse) (Map o) [])
    as [m [e|]] eqn:E; [discriminate|].
  intros H. inversion H. simpl.
  exact (proj2 (resolve_range_valid _ _ _ _ E)).
Qed.
End ResolveFacts.

(** ** Merge *)

Section MergeFacts.
Variable parse : string -> command.t * option error.

Section SpliceMore.
Variable F : Object -> command.t -> Object -> result * gomap Object.


(** After a loop without an error the map holds the final key of every
    key read. *)
Lemma splice_range_holds (l : gomap Object) :
  forall cur m,
    splice_range parse F l cur = (None, m) ->
    Forall (fun kv => forall c, parse (fst kv) = (c, None) ->
                                map_get (command.final c) m <> None) l.
Proof.
  induction l as [|[key val] l IH]; simpl; intros cur m.
  - constructor.
  - destruct (getValidCmd parse key val) as [c [e|]] eqn:Ec; [discriminate|].
    destruct (getValidCmd_inv parse key val c Ec) as [Hp _].
    assert (forall cur',
               map_get (command.final c) cur' <> None ->
               splice_range parse F l cur' = (None, m) ->
               Forall (fun kv => forall c0, parse (fst kv) = (c0, None) ->
                                   map_get (command.final c0) m <> None)
                      ((key, val) :: l)) as Hstep.
    { intros cur' Hin H. constructor; [|exact (IH _ _ H)].
      simpl. intros c0 Hc0. rewrite Hp in Hc0. inversion Hc0; subst c0.
      exact (splice_range_keeps parse F _ l cur' m None H Hin). }
    assert (forall v, map_get (command.final c)
                        (map_set (command.final c) v cur) <> None) as Hset.
    { intros v. rewrite map_get_set, String.eqb_refl. discriminate. }
    destruct (map_get (command.final c) cur) as [existing|] eqn:Eg.
    + repeat break_match; intros H; try discriminate;
        (apply (Hstep _ (Hset _) H)
         || (apply (Hstep cur); [rewrite Eg; discriminate|exact H])).
    + repeat break_match; intros H; try discriminate;
        apply (Hstep _ (Hset _) H).
Qed.
End SpliceMore.


(** X12.  When [Merge] succeeds on a [base] of kind Map, the tree
    returned holds the final key of every direct key of [incoming]. *)
Theorem Merge_holds_incoming (base next rv : Object) :
  Kind base = KMap ->
  no_clear parse (Map next) = true ->
  fst (Merge parse base next) = (rv, None) ->
  Forall (fun kv => forall c, parse (fst kv) = (c, None) ->
                              map_get (command.final c) (Map rv) <> None)
         (Map next).
Proof.
  intros Hk Hc. unfold Merge. rewrite (clear_scan_None _ _ Hc).
  rewrite merge_Map_splice by (assumption || reflexivity).
  destruct (splice_range parse (merge parse) (Map next) (Map base))
    as [[e|] m] eqn:E; simpl; intros H; inversion H. simpl.
  exact (splice_range_holds (merge parse) _ _ _ E).
Qed.

(** X13.  When [Merge] succeeds without meeting clear on a [base] of kind
    Array or Map, the tree returned is of the kind of [base]. *)
Theorem Merge_keeps_Kind (base next rv : Object) :
  Kind base <> KValue ->
  no_clear parse (Map next) = true ->
  fst (Merge parse base next) = (rv, None) ->
  Kind rv = Kind base.
Proof.
  intros Hk Hc. unfold Merge. rewrite (clear_scan_None _ _ Hc).
  destruct (Kind base) eqn:Hb; [| |contradiction].
  - rewrite (merge_Array parse base next command.zero Hb).
    destruct (resolveCommands parse next (secret base)) as [n [e|]];
      simpl; intros H; inversion H.
    apply Kind_array. simpl. rewrite length_app.
    apply Kind_Array_length in Hb. lia.
  - rewrite merge_Map_splice by (assumption || reflexivity).
    destruct (splice_range parse (merge parse) (Map next) (Map base))
      as [[e|] m] eqn:E; simpl; intros H; inversion H.
    apply Kind_map; simpl.
    + unfold Kind in Hb. destruct (Array base); [reflexivity|discriminate].
    + apply Kind_Map_length in Hb as Hl.
      destruct (Map base) as [|[k0 v0] mb] eqn:Em; [simpl in Hl; lia|].
      assert (map_get k0 m <> None) as Hin.
      { eapply splice_range_keeps; [exact E|].
        simpl. rewrite String.eqb_refl. discriminate. }
      destruct m; [contradiction|simpl; lia].
Qed.
End MergeFacts.

(** ** Native values *)

Lemma dense_unfold_slice (l : list any) :
  dense (any_slice l) = negb (Nat.eqb (length l) 0) && forallb dense l.
Proof. reflexivity. Qed.

(** X14.  A native value without empty slices and empty maps comes back
    from [ObjectFromRaw] and [ToRaw] as it was; an empty slice and an
    empty map come back as nil. *)
Theorem ToRaw_ObjectFromRaw (r : any) :
  (dense r = true -> ToRaw (ObjectFromRaw r) = r)
  /\ ToRaw (ObjectFromRaw (any_slice [])) = any_nil
  /\ ToRaw (ObjectFromRaw (any_map [])) = any_nil.
Proof.
  split; [|split; reflexivity].
  induction r as [| b | n | s | l IH | m IH] using any_ind;
    try reflexivity.
  - rewrite dense_unfold_slice. intros H. apply andb_true_iff in H.
    destruct H as [Hl Hd]. apply negb_true_iff, Nat.eqb_neq in Hl.
    change (ObjectFromRaw (any_slice l))
      with (mkObject [] (map ObjectFromRaw l) [] any_nil false).
    rewrite ToRaw_unfold, Kind_array by (simpl; rewrite length_map; lia).
    simpl Array. f_equal. rewrite map_map. apply map_id_on.
    rewrite forallb_forall in Hd.
    rewrite Forall_forall in IH |- *. intros x Hx. auto.
  - simpl dense. intros H. apply andb_true_iff in H. destruct H as [H Hd].
    apply andb_true_iff in H. destruct H as [Hl Hu].
    apply negb_true_iff, Nat.eqb_neq in Hl. apply uniqueb_NoDup in Hu.
    change (ObjectFromRaw (any_map m))
      with (mkObject [] [] (range_set ObjectFromRaw m []) any_nil false).
    rewrite (range_set_unique ObjectFromRaw m []) by exact Hu. simpl app.
    rewrite ToRaw_unfold, Kind_map
      by (reflexivity || (simpl; rewrite length_map; lia)).
    simpl Map.
    rewrite (range_set_unique ToRaw _ [])
      by (simpl; unfold keys; rewrite map_map; exact Hu).
    simpl app. rewrite map_map. simpl. f_equal.
    apply (map_snd_id_on (fun x => ToRaw (ObjectFromRaw x))).
    rewrite forallb_forall in Hd.
    rewrite Forall_forall in IH |- *. intros kv Hkv. auto.
Qed.

(** ** AlterKeyCase with a transform *)

Lemma each_panic_total {A B : Type} (f : A -> option B) (l : list A) :
  Forall (fun x => exists y, f x = Some y) l ->
  exists l', each_panic f l = Some l' /\ length l' = length l.
Proof.
  induction 1 as [|x l [y Hy] _ [l' [Hl' Hlen]]]; simpl.
  - exists []. split; reflexivity.
  - rewrite Hy, Hl'. exists (y :: l'). simpl. split; [reflexivity|lia].
Qed.

Lemma range_set_panic_total {A B : Type} (f : A -> option B)
  (g : string -> string) (l : gomap A) :
  Forall (fun kv => exists y, f (snd kv) = Some y) l ->
  forall m, exists m',
    range_set_panic f (Some g) l m = Some m'
    /\ (length m <= length m')%nat
    /\ ((0 < length l)%nat -> (0 < length m')%nat).
Proof.
  induction 1 as [|[k x] l [y Hy] _ IH]; simpl; intros m.
  - exists m. repeat split; lia.
  - simpl in Hy. rewrite Hy.
    destruct (IH (map_set (g k) y m)) as [m' [Hm' [Hle _]]].
    exists m'. split; [exact Hm'|].
    pose proof (map_set_length (g k) y m) as [H1 H2].
    split; [lia|intros; lia].
Qed.

(** X15.  With a transform that is not nil, [AlterKeyCase] does not
    panic, and the tree it returns has the kind, the Origins, the value
    and the secret flag of the tree it was given, and as many array
    elements. *)
Theorem AlterKeyCase_total (t : Object) (f : string -> string) :
  exists r,
    AlterKeyCase t (Some f) = Some r
    /\ Kind r = Kind t /\ Origins r = Origins t /\ Value r = Value t
    /\ secret r = secret t /\ length (Array r) = length (Array t).
Proof.
  induction t as [og a m v sc IHa IHm] using Object_ind.
  set (o := mkObject og a m v sc).
  rewrite (AlterKeyCase_unfold o).
  destruct (Kind o) eqn:Hk.
  - destruct (each_panic_total (fun val => AlterKeyCase val (Some f)) a)
      as [a' [Ha' Hlen]].
    { eapply Forall_impl; [|exact IHa]. intros x [r [Hr _]]. exists r.
      exact Hr. }
    simpl Array. rewrite Ha'. eexists. split; [reflexivity|].
    repeat split; simpl; try assumption.
    apply Kind_array. simpl. apply Kind_Array_length in Hk. simpl in Hk. lia.
  - destruct (range_set_panic_total (fun val => AlterKeyCase val (Some f))
                f m) with (m := @nil (string * Object))
      as [m' [Hm' [_ Hpos]]].
    { eapply Forall_impl; [|exact IHm]. intros kv [r [Hr _]]. exists r.
      exact Hr. }
    simpl Map. rewrite Hm'. eexists. split; [reflexivity|].
    repeat split; simpl.
    apply Kind_map; simpl.
    + unfold Kind in Hk. simpl in Hk. destruct a; [reflexivity|discriminate].
    + apply Hpos. exact (Kind_Map_length o Hk).
  - exists o. repeat split; assumption.
Qed.

Lemma range_set_panic_fresh {A B : Type} (f : A -> option B)
  (g : string -> string) (l : gomap A) :
  forall m m',
    NoDup (keys m ++ map g (keys l)) ->
    range_set_panic f (Some g) l m = Some m' ->
    exists l',
      m' = m ++ l'
      /\ Forall2 (fun kv kv' => fst kv' = g (fst kv)
                                /\ f (snd kv) = Some (snd kv')) l l'.
Proof.
  induction l as [|[k x] l IH]; simpl; intros m m' Hnd H.
  - inversion H. exists []. rewrite app_nil_r. split; [reflexivity|constructor].
  - destruct (f x) as [y|] eqn:Hy; [|discriminate].
    assert (~ In (g k) (keys m)) as Hfresh.
    { apply NoDup_remove_2 in Hnd. intros Hin. apply Hnd, in_or_app. left.
      exact Hin. }
    rewrite (map_set_fresh (g k) y m Hfresh) in H.
    destruct (IH (m ++ [(g k, y)]) m') as [l' [Hm' Hl']].
    + rewrite keys_app, <- app_assoc. exact Hnd.
    + exact H.
    + exists ((g k, y) :: l'). split.
      * rewrite Hm', <- app_assoc. reflexivity.
      * constructor; [split; [reflexivity|exact Hy]|exact Hl'].
Qed.

(** X16.  When the transform sends the keys of a map to keys that are
    all different, [AlterKeyCase] keeps every entry in its place, under
    its transformed key, with its value transformed. *)
Theorem AlterKeyCase_renames (t r : Object) (f : string -> string) :
  Kind t = KMap ->
  uniqueb (map f (keys (Map t))) = true ->
  AlterKeyCase t (Some f) = Some r ->
  Forall2 (fun kv kv' => fst kv' = f (fst kv)
                         /\ AlterKeyCase (snd kv) (Some f) = Some (snd kv'))
          (Map t) (Map r).
Proof.
  intros Hk Hu. rewrite AlterKeyCase_unfold, Hk.
  destruct (range_set_panic (fun val => AlterKeyCase val (Some f)) (Some f)
              (Map t) []) as [m'|] eqn:E; [|discriminate].
  intros H. inversion H. simpl.
  destruct (range_set_panic_fresh (fun val => AlterKeyCase val (Some f))
              f (Map t) [] m') as [l' [Hm' Hl']].
  - simpl. apply uniqueb_NoDup. exact Hu.
  - exact E.
  - simpl in Hm'. subst m'. exact Hl'.
Qed.

(** ** Origins of merged arrays *)

Lemma string_app_assoc (a b c : string) :
  ((a ++ b) ++ c = a ++ (b ++ c))%string.
Proof. induction a as [|x a IH]; simpl; [reflexivity|rewrite IH; reflexivity]. Qed.

Lemma concat_app (sep : string) (l1 l2 : list string) :
  l1 <> [] -> l2 <> [] ->
  String.concat sep (l1 ++ l2)
  = (String.concat sep l1 ++ sep ++ String.concat sep l2)%string.
Proof.
  intros H1 H2. induction l1 as [|x l1 IH]; [contradiction|].
  destruct l1 as [|y l1].
  - simpl. destruct l2; [contradiction|reflexivity].
  - change (String.concat sep ((x :: y :: l1) ++ l2))
      with (x ++ sep ++ String.concat sep ((y :: l1) ++ l2))%string.
    rewrite IH by discriminate.
    change (String.concat sep (x :: y :: l1))
      with (x ++ sep ++ String.concat sep (y :: l1))%string.
    rewrite !string_app_assoc. reflexivity.
Qed.

(** X17.  When two arrays that both carry Origins are merged with no
    directive or with append, the text of the Origins of the result is
    the text of those of [base], then that of those of [incoming], with
    [", "] between them. *)
Theorem merge_Array_OriginString
  (parse : string -> command.t * option error)
  (obj next next' : Object) (cmd : command.t) :
  Kind obj = KArray ->
  resolveCommands parse next (secret obj) = (next', None) ->
  command.cmd cmd = "" \/ command.cmd cmd = cmdAppend ->
  Origins obj <> [] -> Origins next <> [] ->
  exists rv,
    fst (merge parse obj cmd next) = (rv, None)
    /\ OriginString rv
       = (OriginString obj ++ ", " ++ OriginString next)%string.
Proof.
  intros Hk Hr Hc Ho Hn.
  pose proof (resolveCommands_fields parse next (secret obj)) as Hkeep.
  rewrite Hr in Hkeep. destruct Hkeep as [_ [Hog _]].
  rewrite (merge_Array parse obj next cmd Hk), Hr.
  destruct Hc as [-> | ->]; simpl; eexists; (split; [reflexivity|]);
    unfold OriginString; simpl; rewrite Hog, map_app;
    apply concat_app; intros H; apply map_eq_nil in H; contradiction.
Qed.

(** ** Keys after AlterKeyCase *)

Lemma map_get_keys {A : Type} (k : string) (m : gomap A) :
  map_get k m <> None <-> In k (keys m).
Proof.
  induction m as [|[k0 v0] m IH]; simpl.
  - split; [intros H; contradiction|intros []].
  - destruct (String.eqb_spec k k0) as [->|Hne].
    + split; [intros _; left; reflexivity|intros _; discriminate].
    + rewrite IH. split; [intros H; right; exact H|].
      intros [H|H]; [congruence|exact H].
Qed.

Lemma range_set_panic_keys {A B : Type} (f : A -> option B)
  (g : string -> string) (l : gomap A) :
  forall m m',
    range_set_panic f (Some g) l m = Some m' ->
    forall k', map_get k' m' <> None
               <-> (map_get k' m <> None
                    \/ exists k, In k (keys l) /\ g k = k').
Proof.
  induction l as [|[k x] l IH]; simpl; intros m m' H k'.
  - inversion H. split; [intros Hg; left; exact Hg|].
    intros [Hg|[k [[] _]]]. exact Hg.
  - destruct (f x) as [y|]; [|discriminate].
    rewrite (IH _ _ H k'), map_get_set. split.
    + intros [Hg|[k0 [Hin Hk0]]].
      * destruct (String.eqb_spec k' (g k)) as [Heq|Hne].
        -- right. exists k. split; [left; reflexivity|symmetry; exact Heq].
        -- left. exact Hg.
      * right. exists k0. split; [right; exact Hin|exact Hk0].
    + intros [Hg|[k0 [[Heq|Hin] Hk0]]].
      * left. destruct (k' =? g k); [discriminate|exact Hg].
      * left. subst k0 k'. rewrite String.eqb_refl. discriminate.
      * right. exists k0. split; assumption.
Qed.

Lemma range_set_panic_NoDup {A B : Type} (f : A -> option B)
  (g : string -> string) (l : gomap A) :
  forall m m',
    NoDup (keys m) ->
    range_set_panic f (Some g) l m = Some m' -> NoDup (keys m').
Proof.
  induction l as [|[k x] l IH]; simpl; intros m m' Hnd H.
  - inversion H. subst. exact Hnd.
  - destruct (f x) as [y|]; [|discriminate].
    eapply IH; [|exact H]. apply map_set_NoDup. exact Hnd.
Qed.

(** X18.  The keys of a map that [AlterKeyCase] returns are the
    transformed keys of the map it was given, no more and no less; keys
    that the transform sends to one key leave one entry. *)
Theorem AlterKeyCase_keys (t r : Object) (f : string -> string) :
  Kind t = KMap ->
  AlterKeyCase t (Some f) = Some r ->
  (forall k', map_get k' (Map r) <> None
              <-> exists k, map_get k (Map t) <> None /\ f k = k')
  /\ NoDup (keys (Map r)).
Proof.
  intros Hk. rewrite AlterKeyCase_unfold, Hk.
  destruct (range_set_panic (fun val => AlterKeyCase val (Some f)) (Some f)
              (Map t) []) as [m'|] eqn:E; [|discriminate].
  intros H. inversion H. simpl. split.
  - intros k'.
    rewrite (range_set_panic_keys (fun val => AlterKeyCase val (Some f))
               f (Map t) [] m' E k').
    simpl. split.
    + intros [Hg|[k [Hin Hk']]]; [contradiction|].
      exists k. split; [apply map_get_keys; exact Hin|exact Hk'].
    + intros [k [Hg Hk']]. right. exists k.
      split; [apply map_get_keys; exact Hg|exact Hk'].
  - apply (range_set_panic_NoDup (fun val => AlterKeyCase val (Some f))
             f (Map t) [] m'); [constructor|exact E].
Qed.

(** ** Fetching from a merged tree *)



(** ** The secret marker in a merge *)

(** X20.  A secret marker on the incoming key makes the node that [merge]
    returns secret when the receiver is of kind Value or Map, and when it
    is of kind Array under no directive, append or prepend.  Under
    replace on an Array the marker is not used: the node returned is
    secret when the receiver or the incoming node was. *)
Theorem merge_secret_marker (parse : string -> command.t * option error)
  (obj next rv : Object) (cmd : command.t) :
  fst (merge parse obj cmd next) = (rv, None) ->
  (command.secret cmd = true -> Kind obj <> KArray -> secret rv = true)
  /\ (command.secret cmd = true -> Kind obj = KArray ->
      command.cmd cmd = "" \/ command.cmd cmd = cmdAppend
      \/ command.cmd cmd = cmdPrepend ->
      secret rv = true)
  /\ (Kind obj = KArray -> command.cmd cmd = cmdReplace ->
      secret rv = secret obj || secret next).
Proof.
  intros H. split; [|split].
  - intros Hs Hk. destruct next as [og a m v sc]. simpl in H.
    rewrite Hs in H. revert H.
    destruct (Kind obj); [contradiction| |];
      repeat break_match; simpl; intros H; inversion H; reflexivity.
  - intros Hs Hk Hc. rewrite (merge_Array parse obj next cmd Hk), Hs in H.
    destruct (resolveCommands parse next (secret obj)) as [n [e|]];
      [discriminate|].
    rewrite !orb_true_r in H.
    destruct Hc as [Hc | [Hc | Hc]]; rewrite Hc in H; simpl in H;
      inversion H; reflexivity.
  - intros Hk Hc. rewrite (merge_Array parse obj next cmd Hk), Hc in H.
    pose proof (resolveCommands_fields parse next (secret obj)) as Hf.
    destruct (resolveCommands parse next (secret obj)) as [n [e|]];
      [discriminate|].
    simpl in H. inversion H; subst n.
    destruct Hf as [_ [_ [_ [Hsec _]]]]. exact Hsec.
Qed.

(** ** The further properties at concrete trees

    The parsers are [getCmd] and [Atoi]. *)


(** X3 at a map below a map. *)
Lemma Fetch_app_witness :
  Fetch Atoi (node [("a", node [("b", leaf 1)])]) (["a"] ++ ["b"]) "."
  = Some (leaf 1, None).
Proof.
  apply (proj2 (Fetch_app Atoi (node [("a", node [("b", leaf 1)])])
                  (node [("b", leaf 1)]) ["a"] ["b"] "." eq_refl)).
  reflexivity.
Defined.

(** X4 at a key of a native map and at an index of a native slice. *)
Lemma Fetch_ObjectFromRaw_witness :
  Fetch Atoi (ObjectFromRaw (any_map [("a", any_num 1); ("b", any_num 2)]))
        ["b"] "."
    = Some (ObjectFromRaw (any_num 2), None)
  /\ Fetch Atoi (ObjectFromRaw (any_slice [any_num 1; any_num 2])) ["1"] "."
     = Some (ObjectFromRaw (nth (Z.to_nat 1) [any_num 1; any_num 2] any_nil),
             None).
Proof.
  split.
  - apply (proj1 (Fetch_ObjectFromRaw Atoi ".")); reflexivity.
  - apply (proj2 (proj2 (Fetch_ObjectFromRaw Atoi "."))); [reflexivity|].
    simpl. lia.
Defined.

(** X7 at a map without a secret. *)
Lemma ToRedacted_secret_free_witness :
  ToRedacted (node [("a", leaf 1); ("b", arr [leaf 2])])
  = node [("a", leaf 1); ("b", arr [leaf 2])].
Proof.
  apply (ToRedacted_secret_free (node [("a", leaf 1); ("b", arr [leaf 2])]));
    reflexivity.
Defined.

(** X9 at a map with plain keys. *)
Lemma ResolveCommands_plain_witness :
  ResolveCommands getCmd (node [("a", leaf 1); ("b", arr [leaf 2])])
  = (node [("a", leaf 1); ("b", arr [leaf 2])], None).
Proof.
  apply (ResolveCommands_plain getCmd
           (node [("a", leaf 1); ("b", arr [leaf 2])])); reflexivity.
Defined.

(** X10 at a map with a secret key and a key that carries append. *)
Lemma resolveCommands_valid_witness :
  Forall (fun kv =>
            exists c, getCmd (fst kv) = (c, None)
                      /\ In (command.cmd c) (valid_cmds (Kind (snd kv)))
                      /\ command.cmd c <> cmdClear
                      /\ map_get (command.final c)
                           (Map (node [("a", with_secret (leaf 1) true);
                                       ("b", arr [leaf 2])])) <> None)
         (Map (node [("a((secret))", leaf 1); ("b((append))", arr [leaf 2])])).
Proof.
  exact (resolveCommands_valid getCmd
           (node [("a((secret))", leaf 1); ("b((append))", arr [leaf 2])])
           (node [("a", with_secret (leaf 1) true); ("b", arr [leaf 2])])
           false eq_refl eq_refl).
Defined.


(** X12 at a key that replaces and a key that is new. *)
Lemma Merge_holds_incoming_witness :
  Forall (fun kv =>
            forall c, getCmd (fst kv) = (c, None) ->
                      map_get (command.final c)
                        (Map (node [("a", leaf 1); ("b", leaf 3);
                                    ("c", leaf 4)])) <> None)
         (Map (node [("b((replace))", leaf 3); ("c", leaf 4)])).
Proof.
  exact (Merge_holds_incoming getCmd (node [("a", leaf 1); ("b", leaf 2)])
           (node [("b((replace))", leaf 3); ("c", leaf 4)])
           (node [("a", leaf 1); ("b", leaf 3); ("c", leaf 4)])
           eq_refl eq_refl eq_refl).
Defined.

(** X13 at a map and at an array. *)
Lemma Merge_keeps_Kind_witness :
  Kind (node [("a", leaf 1); ("b", leaf 3)])
    = Kind (node [("a", leaf 1); ("b", leaf 2)])
  /\ Kind (arr [leaf 1; leaf 2]) = Kind (arr [leaf 1]).
Proof.
  split.
  - apply (Merge_keeps_Kind getCmd (node [("a", leaf 1); ("b", leaf 2)])
             (node [("b", leaf 3)])); [discriminate|reflexivity|reflexivity].
  - apply (Merge_keeps_Kind getCmd (arr [leaf 1]) (arr [leaf 2]));
      [discriminate|reflexivity|reflexivity].
Defined.

(** X14 at a map that holds a slice. *)
Lemma ToRaw_ObjectFromRaw_witness :
  ToRaw (ObjectFromRaw (any_map [("a", any_slice [any_num 1; any_nil]);
                                 ("b", any_string "x")]))
  = any_map [("a", any_slice [any_num 1; any_nil]); ("b", any_string "x")].
Proof.
  apply (proj1 (ToRaw_ObjectFromRaw
                  (any_map [("a", any_slice [any_num 1; any_nil]);
                            ("b", any_string "x")]))).
  reflexivity.
Defined.

(** X16 with a transform that puts [x] before every key. *)
Lemma AlterKeyCase_renames_witness :
  Forall2 (fun kv kv' =>
             fst kv' = String "x" (fst kv)
             /\ AlterKeyCase (snd kv) (Some (String "x"%char))
                = Some (snd kv'))
          (Map (node [("a", leaf 1); ("b", node [("c", leaf 2)])]))
          (Map (node [("xa", leaf 1); ("xb", node [("xc", leaf 2)])])).
Proof.
  exact (AlterKeyCase_renames
           (node [("a", leaf 1); ("b", node [("c", leaf 2)])])
           (node [("xa", leaf 1); ("xb", node [("xc", leaf 2)])])
           (String "x"%char) eq_refl eq_refl eq_refl).
Defined.

(** X17 at two arrays with one Origin each. *)
Lemma merge_Array_OriginString_witness :
  exists rv,
    fst (merge getCmd (with_Origins (arr [leaf 1]) [origin1]) command.zero
               (with_Origins (arr [leaf 2]) [origin2])) = (rv, None)
    /\ OriginString rv
       = (OriginString (with_Origins (arr [leaf 1]) [origin1]) ++ ", "
          ++ OriginString (with_Origins (arr [leaf 2]) [origin2]))%string.
Proof.
  apply (merge_Array_OriginString getCmd
           (with_Origins (arr [leaf 1]) [origin1])
           (with_Origins (arr [leaf 2]) [origin2])
           (with_Origins (arr [leaf 2]) [origin2]) command.zero);
    [reflexivity|reflexivity|left; reflexivity|discriminate|discriminate].
Defined.

(** X18 with a transform that sends every key to [k]. *)
Lemma AlterKeyCase_keys_witness :
  (forall k', map_get k' (Map (node [("k", leaf 2)])) <> None
              <-> exists k, map_get k (Map (node [("a", leaf 1);
                                                  ("b", leaf 2)])) <> None
                            /\ "k" = k')
  /\ NoDup (keys (Map (node [("k", leaf 2)]))).
Proof.
  exact (AlterKeyCase_keys (node [("a", leaf 1); ("b", leaf 2)])
           (node [("k", leaf 2)]) (fun _ => "k") eq_refl eq_refl).
Defined.


(** X20 at two leaves and at two arrays under replace. *)
Lemma merge_secret_marker_witness :
  secret (with_secret (leaf 2) true) = true
  /\ secret (arr [leaf 2]) = secret (arr [leaf 1]) || secret (arr [leaf 2]).
Proof.
  split.
  - apply (proj1 (merge_secret_marker getCmd (leaf 1) (leaf 2)
                    (with_secret (leaf 2) true) (command.mk "" true "a")
                    eq_refl)); [reflexivity|discriminate].
  - apply (proj2 (proj2 (merge_secret_marker getCmd (arr [leaf 1])
                           (arr [leaf 2]) (arr [leaf 2])
                           (command.mk cmdReplace true "a") eq_refl)));
      reflexivity.
Defined.
